(** * sdn.py: flow routing and link-failure recovery of a small SDN controller

    A shallow embedding of [src/sdn.py].  The controller keeps two globals,
    the topology [G] (a [networkx.Graph] whose edges carry a [num_flows]
    counter) and [flow_table] (a dict from [(src, dst)] to a flow record),
    and mutates them through [inject_flow], [remove_flow] and [fail_link].

    Layout:
    - [nx]: the part of the networkx API that sdn.py calls, as executable
      functions over an edge list;
    - the controller monad (state over the two globals and the printed
      lines, with Python exceptions as a result type);
    - the functions of sdn.py, under their own names;
    - the properties. *)

From Stdlib Require Import String List ZArith Bool Lia Arith Sorted.
Import ListNotations.

Local Open Scope string_scope.
Local Open Scope list_scope.

Definition node := string.
Definition path := list node.

(** Python exceptions that the modelled code can raise. *)
Inductive exn : Type :=
| NodeNotFound
| NetworkXNoPath
| ValueError
| TypeError
| KeyError
| IndexError.

Inductive res (A : Type) : Type :=
| Ok (a : A)
| Raise (e : exn).

Arguments Ok {A} a.
Arguments Raise {A} e.

(** [zip(path, path[1:])]: the consecutive node pairs of a path. *)
Fixpoint hops (p : path) : list (node * node) :=
  match p with
  | [] => []
  | u :: q => match q with
              | [] => []
              | v :: _ => (u, v) :: hops q
              end
  end.

(** * The networkx functions used by sdn.py *)

Module nx.

(** An undirected graph: the node set, and each edge once with its
    [num_flows] attribute.  An edge stored as [(a, b, n)] answers to both
    [G[a][b]] and [G[b][a]]. *)
Record Graph : Type := mkGraph {
  nodes : list node;
  edges : list (node * node * Z)
}.

Definition empty : Graph := mkGraph [] [].

Definition joins (u v : node) (e : node * node * Z) : bool :=
  let '(a, b, _) := e in
  (String.eqb a u && String.eqb b v) || (String.eqb a v && String.eqb b u).

Definition has_node (g : Graph) (n : node) : bool :=
  existsb (String.eqb n) (nodes g).

Definition has_edge (g : Graph) (u v : node) : bool :=
  existsb (joins u v) (edges g).

Definition add_node (g : Graph) (n : node) : Graph :=
  if has_node g n then g else mkGraph (nodes g ++ [n]) (edges g).

(** [G.add_edge(u, v, num_flows = n)]: adds missing endpoints; on an
    existing edge only the attribute is updated. *)
Definition add_edge (g : Graph) (u v : node) (n : Z) : Graph :=
  let g' := add_node (add_node g u) v in
  if has_edge g' u v
  then mkGraph (nodes g')
         (map (fun e => if joins u v e then (fst (fst e), snd (fst e), n) else e)
              (edges g'))
  else mkGraph (nodes g') (edges g' ++ [(u, v, n)]).

(** [G.remove_edge(u, v)].  networkx raises on a missing edge; every call
    in sdn.py is guarded by [has_edge], where this filter agrees. *)
Definition remove_edge (g : Graph) (u v : node) : Graph :=
  mkGraph (nodes g) (filter (fun e => negb (joins u v e)) (edges g)).

(** [G[u][v]['num_flows']], [None] standing for the KeyError. *)
Definition num_flows (g : Graph) (u v : node) : option Z :=
  match find (joins u v) (edges g) with
  | Some (_, _, n) => Some n
  | None => None
  end.

(** [G[u][v]['num_flows'] = f (G[u][v]['num_flows'])]. *)
Definition update_num_flows (f : Z -> Z) (g : Graph) (u v : node) : Graph :=
  mkGraph (nodes g)
    (map (fun e => if joins u v e then (fst (fst e), snd (fst e), f (snd e)) else e)
         (edges g)).

(** [G.copy()]: a fresh graph with the same nodes, edges and attributes. *)
Definition copy (g : Graph) : Graph := mkGraph (nodes g) (edges g).

(** All simple paths from [u] to [dst] that continue through the nodes of
    [cands] only, depth first.  [fuel] bounds the recursion; the length of
    [cands] is always enough, since every step removes a candidate. *)
Fixpoint simple_paths (g : Graph) (fuel : nat) (cands : list node)
         (u dst : node) : list path :=
  if String.eqb u dst then [[u]]
  else match fuel with
       | O => []
       | S fuel' =>
         flat_map
           (fun v =>
              if has_edge g u v
              then map (cons u)
                     (simple_paths g fuel' (remove string_dec v cands) v dst)
              else [])
           cands
       end.

Fixpoint insert_by_length (p : path) (l : list path) : list path :=
  match l with
  | [] => [p]
  | q :: l' => if (length p <=? length q)%nat then p :: l
               else q :: insert_by_length p l'
  end.

Definition sort_by_length (l : list path) : list path :=
  fold_right insert_by_length [] l.

Definition all_simple_paths (g : Graph) (src dst : node) : list path :=
  let cands := remove string_dec src (nodes g) in
  simple_paths g (length cands) cands src dst.

(** [list(nx.shortest_simple_paths(G, src, dst))]: every simple path from
    [src] to [dst], shortest first.  A missing endpoint raises
    NodeNotFound and an unreachable target raises NetworkXNoPath, both
    while the generator is consumed.  The order among paths of equal
    length is the library's own; here it is the depth-first order over the
    node list, and no property below depends on it. *)
Definition shortest_simple_paths (g : Graph) (src dst : node)
  : res (list path) :=
  if negb (has_node g src) then Raise NodeNotFound
  else if negb (has_node g dst) then Raise NodeNotFound
  else match sort_by_length (all_simple_paths g src dst) with
       | [] => Raise NetworkXNoPath
       | ps => Ok ps
       end.

(** [nx.shortest_path(G, src, dst)]: one shortest path by hop count, found
    by the bidirectional search that also produces the first path of
    [shortest_simple_paths]. *)
Definition shortest_path (g : Graph) (src dst : node) : res path :=
  match shortest_simple_paths g src dst with
  | Ok (p :: _) => Ok p
  | Ok [] => Raise NetworkXNoPath
  | Raise e => Raise e
  end.

End nx.

(** * The controller state and its monad *)

(** [info['active']] holds one of the two field names. *)
Inductive selector : Type :=
| PRIMARY
| BACKUP.

(** A value of [flow_table]. *)
Record flow : Type := mkFlow {
  priority : bool;
  critical : bool;
  primary : path;
  backup : option path;
  active : selector
}.

Definition key : Type := node * node.

(** A Python dict keeps insertion order and one entry per key. *)
Definition table : Type := list (key * flow).

Definition key_eqb (a b : key) : bool :=
  String.eqb (fst a) (fst b) && String.eqb (snd a) (snd b).

Fixpoint dict_get (k : key) (t : table) : option flow :=
  match t with
  | [] => None
  | (k', f) :: t' => if key_eqb k k' then Some f else dict_get k t'
  end.

(** [d[k] = f]: an existing key keeps its position. *)
Fixpoint dict_set (k : key) (f : flow) (t : table) : table :=
  match t with
  | [] => [(k, f)]
  | (k', f') :: t' => if key_eqb k k' then (k', f) :: t'
                      else (k', f') :: dict_set k f t'
  end.

(** [del d[k]]. *)
Definition dict_del (k : key) (t : table) : table :=
  filter (fun kf => negb (key_eqb k (fst kf))) t.

(** [d[k]['active'] = s]. *)
Definition dict_set_active (k : key) (s : selector) (t : table) : table :=
  map (fun kf =>
         if key_eqb k (fst kf)
         then (fst kf, mkFlow (priority (snd kf)) (critical (snd kf))
                              (primary (snd kf)) (backup (snd kf)) s)
         else kf) t.

(** [info.get(info['active'], [])]: the field is always present, so the
    default is never used and an absent backup comes back as [None]. *)
Definition active_path (f : flow) : option path :=
  match active f with
  | PRIMARY => Some (primary f)
  | BACKUP => backup f
  end.

(** The lines sdn.py prints, by format string. *)
Inductive line : Type :=
| FailedToFindPath (src dst : node)
| NoActiveFlow (src dst : node)
| FlowRemoved (src dst : node)
| NoLink (u v : node)
| FailingLink (u v : node)
| FlowAffected (src dst : node)
| Rerouted (src dst : node) (new_path : path)
| FlowDropped (src dst : node).

Record world : Type := mkWorld {
  G : nx.Graph;
  flow_table : table;
  stdout : list line
}.

(** State over [world]; a raised exception keeps the writes made so far. *)
Definition M (A : Type) : Type := world -> res A * world.

Definition ret {A} (a : A) : M A := fun w => (Ok a, w).

Definition raise {A} (e : exn) : M A := fun w => (Raise e, w).

Definition bind {A B} (m : M A) (k : A -> M B) : M B :=
  fun w => match m w with
           | (Ok a, w') => k a w'
           | (Raise e, w') => (Raise e, w')
           end.

Notation "x <- m ;; k" := (bind m (fun x => k))
  (at level 61, m at next level, right associativity).
Notation "m ;;; k" := (bind m (fun _ => k))
  (at level 61, right associativity).

(** Runs [m] and hands its outcome, value or exception, to the handler. *)
Definition attempt {A} (m : M A) : M (res A) :=
  fun w => match m w with
           | (r, w') => (Ok r, w')
           end.

Definition lift {A} (r : res A) : M A := fun w => (r, w).

Definition get_G : M nx.Graph := fun w => (Ok (G w), w).

Definition put_G (g : nx.Graph) : M unit :=
  fun w => (Ok tt, mkWorld g (flow_table w) (stdout w)).

Definition get_flow_table : M table := fun w => (Ok (flow_table w), w).

Definition put_flow_table (t : table) : M unit :=
  fun w => (Ok tt, mkWorld (G w) t (stdout w)).

Definition print (l : line) : M unit :=
  fun w => (Ok tt, mkWorld (G w) (flow_table w) (stdout w ++ [l])).

Fixpoint for_each {A} (l : list A) (body : A -> M unit) : M unit :=
  match l with
  | [] => ret tt
  | a :: l' => body a ;;; for_each l' body
  end.

(** * sdn.py *)

Local Open Scope Z_scope.

(** The generator [G[u][v]['num_flows'] for u, v in zip(path, path[1:])]. *)
Fixpoint hop_loads (g : nx.Graph) (hs : list (node * node)) : res (list Z) :=
  match hs with
  | [] => Ok []
  | (u, v) :: hs' =>
    match nx.num_flows g u v with
    | None => Raise KeyError
    | Some n => match hop_loads g hs' with
                | Ok ns => Ok (n :: ns)
                | Raise e => Raise e
                end
    end
  end.

(** [path_cost], the local function of [compute_path]; [max] of an empty
    sequence is a ValueError. *)
Definition path_cost (g : nx.Graph) (p : path) : res Z :=
  match hop_loads g (hops p) with
  | Raise e => Raise e
  | Ok [] => Raise ValueError
  | Ok (n :: ns) => Ok (fold_left Z.max ns n)
  end.

(** [min(paths, key=path_cost)]: a later path replaces the best one only
    when its key is strictly smaller. *)
Fixpoint min_from (g : nx.Graph) (best : path) (best_cost : Z)
         (ps : list path) : res path :=
  match ps with
  | [] => Ok best
  | p :: ps' =>
    match path_cost g p with
    | Raise e => Raise e
    | Ok c => if c <? best_cost then min_from g p c ps'
              else min_from g best best_cost ps'
    end
  end.

Definition min_by_cost (g : nx.Graph) (ps : list path) : res path :=
  match ps with
  | [] => Raise ValueError
  | p :: ps' => match path_cost g p with
                | Raise e => Raise e
                | Ok c => min_from g p c ps'
                end
  end.

Definition compute_path (src dst : node) (priority critical : bool)
  : M (option path) :=
  g <- get_G ;;
  r <- attempt (lift (nx.shortest_simple_paths g src dst)) ;;
  match r with
  | Raise NetworkXNoPath => ret None
  | Raise e => raise e
  | Ok paths =>
    match paths with
    | [] => ret None
    | p0 :: _ =>
      if priority then ret (Some p0)
      else p <- lift (min_by_cost g paths) ;; ret (Some p)
    end
  end.

(** The loop of [compute_backup_path] over the copy. *)
Definition remove_path_edges (g : nx.Graph) (p : path) : nx.Graph :=
  fold_left (fun c uv => if nx.has_edge c (fst uv) (snd uv)
                         then nx.remove_edge c (fst uv) (snd uv) else c)
            (hops p) g.

Definition compute_backup_path (primary_path : path) : M (option path) :=
  g <- get_G ;;
  let G_copy := remove_path_edges (nx.copy g) primary_path in
  match primary_path with
  | [] => raise IndexError
  | first :: _ =>
    r <- attempt (lift (nx.shortest_path G_copy first (last primary_path first))) ;;
    match r with
    | Raise NetworkXNoPath => ret None
    | Raise e => raise e
    | Ok p => ret (Some p)
    end
  end.

(** [num_flows += 1] on each edge of the path that exists. *)
Definition incr_flows (g : nx.Graph) (p : path) : nx.Graph :=
  fold_left (fun g' uv => if nx.has_edge g' (fst uv) (snd uv)
                          then nx.update_num_flows (fun n => n + 1) g' (fst uv) (snd uv)
                          else g')
            (hops p) g.

(** [num_flows = max(0, num_flows - 1)] on each edge of the path that exists. *)
Definition decr_flows (g : nx.Graph) (p : path) : nx.Graph :=
  fold_left (fun g' uv => if nx.has_edge g' (fst uv) (snd uv)
                          then nx.update_num_flows (fun n => Z.max 0 (n - 1)) g' (fst uv) (snd uv)
                          else g')
            (hops p) g.

Definition add_flow (src dst : node) (p : path) (priority critical : bool)
           (backup_path : option path) : M unit :=
  t <- get_flow_table ;;
  put_flow_table
    (dict_set (src, dst) (mkFlow priority critical p backup_path PRIMARY) t) ;;;
  g <- get_G ;;
  put_G (incr_flows g p).

Definition inject_flow (src dst : node) (priority critical : bool) : M unit :=
  p <- compute_path src dst priority critical ;;
  match p with
  | None => print (FailedToFindPath src dst)
  | Some p =>
    backup_path <- (if critical then compute_backup_path p else ret None) ;;
    add_flow src dst p priority critical backup_path
  end.

Definition remove_flow (src dst : node) : M unit :=
  t <- get_flow_table ;;
  match dict_get (src, dst) t with
  | None => print (NoActiveFlow src dst)
  | Some f =>
    match active_path f with
    | None => raise TypeError
    | Some p =>
      g <- get_G ;;
      put_G (decr_flows g p) ;;;
      t <- get_flow_table ;;
      put_flow_table (dict_del (src, dst) t) ;;;
      print (FlowRemoved src dst)
    end
  end.

Definition pair_eqb (a b : node * node) : bool :=
  String.eqb (fst a) (fst b) && String.eqb (snd a) (snd b).

(** [(u, v) in zip(path, path[1:])]. *)
Definition on_path (u v : node) (p : path) : bool :=
  existsb (pair_eqb (u, v)) (hops p).

Definition truthy (p : path) : bool :=
  match p with
  | [] => false
  | _ :: _ => true
  end.

(** The condition of the scan,
    [path and (u, v) in zip(..) or (v, u) in zip(..)], which Python groups as
    [(path and (u, v) in zip(..)) or ((v, u) in zip(..))]; on [None] the
    right operand is evaluated and slicing fails. *)
Definition affected (u v : node) (info : flow) : res bool :=
  match active_path info with
  | None => Raise TypeError
  | Some p => Ok ((truthy p && on_path u v p) || on_path v u p)
  end.

(** The first loop of [fail_link], over [list(flow_table.items())]. *)
Fixpoint affected_flows (u v : node) (t : table) : res (list (key * flow)) :=
  match t with
  | [] => Ok []
  | (k, info) :: t' =>
    match affected u v info with
    | Raise e => Raise e
    | Ok b => match affected_flows u v t' with
              | Raise e => Raise e
              | Ok l => Ok (if b then (k, info) :: l else l)
              end
    end
  end.

Definition has_backup (info : flow) : bool :=
  match backup info with
  | Some b => truthy b
  | None => false
  end.

(** The body of the second loop of [fail_link].  [info] is the record the
    scan saw; keys are unique in a dict, so no earlier iteration has written
    to it. *)
Definition handle_affected (kf : key * flow) : M unit :=
  let '((src, dst), info) := kf in
  print (FlowAffected src dst) ;;;
  match active_path info with
  | None => raise TypeError
  | Some old_path =>
    g <- get_G ;;
    put_G (decr_flows g old_path) ;;;
    if critical info && has_backup info
    then
      match backup info with
      | None => raise TypeError
      | Some new_path =>
        g <- get_G ;;
        put_G (incr_flows g new_path) ;;;
        t <- get_flow_table ;;
        put_flow_table (dict_set_active (src, dst) BACKUP t) ;;;
        print (Rerouted src dst new_path)
      end
    else
      t <- get_flow_table ;;
      put_flow_table (dict_del (src, dst) t) ;;;
      print (FlowDropped src dst)
  end.

Definition fail_link (u v : node) : M unit :=
  g <- get_G ;;
  if negb (nx.has_edge g u v) then print (NoLink u v)
  else
    print (FailingLink u v) ;;;
    put_G (nx.remove_edge g u v) ;;;
    t <- get_flow_table ;;
    affected <- lift (affected_flows u v t) ;;
    for_each affected handle_affected.

(** The topology and the three flows that [main] sets up before it reads
    commands. *)
Definition main_G : nx.Graph :=
  let g := fold_left nx.add_node ["A"; "B"; "C"; "D"; "E"]%string nx.empty in
  fold_left (fun g uv => nx.add_edge g (fst uv) (snd uv) 0)
    [("A", "C"); ("A", "E"); ("B", "E"); ("C", "E"); ("D", "E")]%string g.

Definition main_setup : M unit :=
  inject_flow "A" "B" false false ;;;
  inject_flow "A" "C" false true ;;;
  inject_flow "B" "C" true false.

Definition main_world : world :=
  snd (main_setup (mkWorld main_G [] [])).

Definition run {A} (m : M A) (w : world) : world := snd (m w).
Definition result {A} (m : M A) (w : world) : res A := fst (m w).

(** * Paths in a graph *)

Section Paths.

Variable g : nx.Graph.

(** Every node is in the graph and every hop is an edge. *)
Definition is_walk (p : path) : Prop :=
  Forall (fun n => nx.has_node g n = true) p /\
  Forall (fun uv => nx.has_edge g (fst uv) (snd uv) = true) (hops p).

Definition from_to (src dst : node) (p : path) : Prop :=
  hd_error p = Some src /\ last p src = dst.

Definition simple_path (src dst : node) (p : path) : Prop :=
  from_to src dst p /\ NoDup p /\ is_walk p.

(** [dst] can be reached from [src]. *)
Definition connected (src dst : node) : Prop :=
  exists p, from_to src dst p /\ is_walk p.

End Paths.

Definition sorted_by_length (l : list path) : Prop :=
  StronglySorted (fun p q => (length p <= length q)%nat) l.

(** An edge of the path, in either direction. *)
Definition touches (u v : node) (p : path) : bool :=
  on_path u v p || on_path v u p.

(** The load of an edge, 0 where there is none. *)
Definition load (g : nx.Graph) (u v : node) : Z :=
  match nx.num_flows g u v with
  | Some n => n
  | None => 0
  end.

(** The largest load along the path. *)
Definition bottleneck (g : nx.Graph) (p : path) : Z :=
  match hops p with
  | [] => 0
  | (u, v) :: hs => fold_left Z.max (map (fun xy => load g (fst xy) (snd xy)) hs) (load g u v)
  end.

(** * Definitions used by the properties *)

(** The unordered pair [{x, y}] is [{u, v}]. *)
Definition same_link (u v x y : node) : bool :=
  (String.eqb x u && String.eqb y v) || (String.eqb x v && String.eqb y u).

(** The topology with every edge of the path removed. *)
Definition without_path_edges (g : nx.Graph) (p : path) : nx.Graph :=
  nx.mkGraph (nx.nodes g)
    (filter (fun e => negb (touches (fst (fst e)) (snd (fst e)) p)) (nx.edges g)).

(** The topology of [main] after the link D-E has failed: D is cut off. *)
Definition isolated_D : world := run (fail_link "D" "E") main_world.

(** Applies [f] once to the load of every edge that the path traverses. *)
Definition bump_path (f : Z -> Z) (g : nx.Graph) (p : path) : nx.Graph :=
  nx.mkGraph (nx.nodes g)
    (map (fun e => if touches (fst (fst e)) (snd (fst e)) p
                   then (fst (fst e), snd (fst e), f (snd e)) else e)
         (nx.edges g)).

Definition update_hops (f : Z -> Z) (hs : list (node * node)) (g : nx.Graph)
  : nx.Graph :=
  fold_left (fun g' uv => if nx.has_edge g' (fst uv) (snd uv)
                          then nx.update_num_flows f g' (fst uv) (snd uv)
                          else g')
            hs g.

(** The active path of the record traverses the edge. *)
Definition traverses (x y : node) (f : flow) : bool :=
  match active_path f with
  | Some p => touches x y p
  | None => false
  end.

(** The number of flow records whose active path traverses the edge. *)
Definition flows_on (t : table) (x y : node) : Z :=
  Z.of_nat (length (filter (fun kf => traverses x y (snd kf)) t)).

(** Every edge carries exactly the flows that are routed over it. *)
Definition conserved (w : world) : bool :=
  forallb (fun e => snd e =? flows_on (flow_table w) (fst (fst e)) (snd (fst e)))
          (nx.edges (G w)).

Fixpoint nodupb (p : path) : bool :=
  match p with
  | [] => true
  | a :: q => negb (existsb (String.eqb a) q) && nodupb q
  end.

(** A record as [inject_flow] and [fail_link] leave it: its paths visit no
    node twice, and the backup is active only if there is one. *)
Definition flow_okb (f : flow) : bool :=
  nodupb (primary f) &&
  match backup f with
  | Some b => nodupb b
  | None => match active f with
            | PRIMARY => true
            | BACKUP => false
            end
  end.

Fixpoint unique_keys (t : table) : bool :=
  match t with
  | [] => true
  | (k, _) :: t' => negb (existsb (fun kf => key_eqb k (fst kf)) t') && unique_keys t'
  end.

Definition table_ok (t : table) : bool :=
  unique_keys t && forallb (fun kf => flow_okb (snd kf)) t.

Definition set_active (s : selector) (f : flow) : flow :=
  mkFlow (priority f) (critical f) (primary f) (backup f) s.

(** The failure handler as section 4.5 of the specification words it: one
    pass over the records in table order, the graph being the topology
    without the failed link.  An affected record has its load taken off
    every edge of its active path (floor 0); then, if it is critical and has
    a backup, it is switched to the backup, the load is put on every edge of
    the backup and the reroute is reported; otherwise it is dropped from the
    table and the eviction is reported. *)
Fixpoint failLink_spec (u v : node) (t : table) (g : nx.Graph)
  : nx.Graph * table * list line :=
  match t with
  | [] => (g, [], [])
  | (k, info) :: t' =>
    match active_path info with
    | Some p =>
      if touches u v p then
        let g1 := bump_path (fun n => Z.max 0 (n - 1)) g p in
        match backup info with
        | Some b =>
          if critical info && truthy b then
            let '(g', t'', out) := failLink_spec u v t' (bump_path (fun n => n + 1) g1 b) in
            (g', (k, set_active BACKUP info) :: t'',
             FlowAffected (fst k) (snd k) :: Rerouted (fst k) (snd k) b :: out)
          else
            let '(g', t'', out) := failLink_spec u v t' g1 in
            (g', t'', FlowAffected (fst k) (snd k) :: FlowDropped (fst k) (snd k) :: out)
        | None =>
          let '(g', t'', out) := failLink_spec u v t' g1 in
          (g', t'', FlowAffected (fst k) (snd k) :: FlowDropped (fst k) (snd k) :: out)
        end
      else
        let '(g', t'', out) := failLink_spec u v t' g in
        (g', (k, info) :: t'', out)
    | None =>
      let '(g', t'', out) := failLink_spec u v t' g in
      (g', (k, info) :: t'', out)
    end
  end.

Definition keys_fresh (pre t : table) : Prop :=
  forall kf, In kf t -> existsb (fun x => key_eqb (fst kf) (fst x)) pre = false.

(** The loop of operations that the shell drives. *)
Inductive op : Type :=
| Install (src dst : node) (prio crit : bool)
| Remove (src dst : node)
| FailLink (u v : node).

Definition exec (o : op) : M unit :=
  match o with
  | Install src dst prio crit => inject_flow src dst prio crit
  | Remove src dst => remove_flow src dst
  | FailLink u v => fail_link u v
  end.

(** Every stored edge carries exactly the flows routed over it. *)
Definition load_conserved (g : nx.Graph) (t : table) : Prop :=
  Forall (fun e => snd e = flows_on t (fst (fst e)) (snd (fst e))) (nx.edges g).

(** The load of every stored edge is [base] plus the flows routed over it. *)
Definition load_offset (base : node -> node -> Z) (g : nx.Graph) (t : table) : Prop :=
  Forall (fun e => snd e = base (fst (fst e)) (snd (fst e)) +
                           flows_on t (fst (fst e)) (snd (fst e)))
         (nx.edges g).

Definition one_if (b : bool) : Z := if b then 1 else 0.

Fixpoint run_ops (os : list op) (w : world) : world :=
  match os with
  | [] => w
  | o :: os' => run_ops os' (run (exec o) w)
  end.

(** No install of the sequence names a key that is in the table when the
    install runs. *)
Fixpoint fresh_installs (os : list op) (w : world) : Prop :=
  match os with
  | [] => True
  | o :: os' =>
    match o with
    | Install src dst _ _ => dict_get (src, dst) (flow_table w) = None
    | _ => True
    end /\ fresh_installs os' (run (exec o) w)
  end.

(** ** The shell of [main] *)

(** [G.remove_node(n)]: the node goes, with every edge at it.  networkx
    raises on a missing node; the call in [main] is guarded by [has_node]. *)
Definition remove_node (g : nx.Graph) (n : node) : nx.Graph :=
  nx.mkGraph (filter (fun m => negb (String.eqb m n)) (nx.nodes g))
             (filter (fun e => negb (String.eqb (fst (fst e)) n) &&
                               negb (String.eqb (snd (fst e)) n))
                     (nx.edges g)).

(** [cmd.split(" ")]: cut at every single space; two spaces in a row give
    an empty token, and the empty line gives one empty token. *)
Fixpoint split_space (s : string) : list string :=
  match s with
  | EmptyString => [EmptyString]
  | String c s' =>
    if String.eqb (String c EmptyString) " " then EmptyString :: split_space s'
    else match split_space s' with
         | [] => [String c EmptyString]
         | t :: ts => String c t :: ts
         end
  end.

(** What the terminal shows: the prompt of [input], the lines [main] prints
    itself, and the lines of the functions it calls. *)
Inductive shell_line : Type :=
| Prompt
| Core (l : line)
| IncorrectArguments
| LinkExists
| AddedEdge (a b : string)
| NodesMissing
| NodeExists
| NodeAdded (n : string)
| NodeRemoved (n : string)
| MustBe0Or1
| QueryFound (k : key) (act : selector) (prim : path) (back : option path)
| QueryNotFound (a b : string)
| UnknownCommand.

Record session : Type := mkSession {
  sG : nx.Graph;
  sflow_table : table;
  console : list shell_line
}.

(** Whether the [while True] loop goes on or hits [break]. *)
Inductive control : Type :=
| Continue
| Break.

Definition say (l : shell_line) (s : session) : res control * session :=
  (Ok Continue, mkSession (sG s) (sflow_table s) (console s ++ [l])).

(** A call from [main] into one of the functions above: it runs on the two
    globals, and what it prints goes to the terminal. *)
Definition call (m : M unit) (s : session) : res unit * session :=
  match m (mkWorld (sG s) (sflow_table s) []) with
  | (r, w) => (r, mkSession (G w) (flow_table w) (console s ++ map Core (stdout w)))
  end.

(** One pass through the body of the command loop, [cmd] being the split
    line.  [py_int] stands for Python's [int] on a string, [None] being its
    ValueError; [bool(int(x))] is true for every value but 0.  An exception
    other than the ValueError caught around [inject_flow] leaves the loop. *)
Definition command (py_int : string -> option Z) (cmd : list string)
           (s : session) : res control * session :=
  match cmd with
  | [] => (Raise IndexError, s)
  | c0 :: args =>
    if String.eqb c0 "insert_link" then
      match args with
      | [a; b] =>
        if nx.has_node (sG s) a && nx.has_node (sG s) b then
          if nx.has_edge (sG s) a b then say LinkExists s
          else say (AddedEdge a b)
                   (mkSession (nx.add_edge (sG s) a b 0) (sflow_table s) (console s))
        else say NodesMissing s
      | _ => say IncorrectArguments s
      end
    else if String.eqb c0 "insert_node" then
      match args with
      | [n] =>
        if nx.has_node (sG s) n then say NodeExists s
        else say (NodeAdded n)
                 (mkSession (nx.add_node (sG s) n) (sflow_table s) (console s))
      | _ => say IncorrectArguments s
      end
    else if String.eqb c0 "delete_node:" then
      match args with
      | [n] =>
        if nx.has_node (sG s) n
        then say (NodeRemoved n)
                 (mkSession (remove_node (sG s) n) (sflow_table s) (console s))
        else (Ok Continue, s)
      | _ => say IncorrectArguments s
      end
    else if String.eqb c0 "inject" then
      match args with
      | [src; dst; p; c] =>
        match py_int p with
        | None => say MustBe0Or1 s
        | Some pz =>
          match py_int c with
          | None => say MustBe0Or1 s
          | Some cz =>
            match call (inject_flow src dst (negb (pz =? 0)) (negb (cz =? 0))) s with
            | (Ok _, s') => (Ok Continue, s')
            | (Raise ValueError, s') => say MustBe0Or1 s'
            | (Raise e, s') => (Raise e, s')
            end
          end
        end
      | _ => say IncorrectArguments s
      end
    else if String.eqb c0 "disable" || String.eqb c0 "delete_link" then
      match args with
      | [u; v] =>
        match call (fail_link u v) s with
        | (Ok _, s') => (Ok Continue, s')
        | (Raise e, s') => (Raise e, s')
        end
      | _ => say IncorrectArguments s
      end
    else if String.eqb c0 "query" then
      match args with
      | [a; b] =>
        match dict_get (a, b) (sflow_table s) with
        | Some f => say (QueryFound (a, b) (active f) (primary f) (backup f)) s
        | None => say (QueryNotFound a b) s
        end
      | _ => say IncorrectArguments s
      end
    else if String.eqb c0 "quit" then (Ok Break, s)
    else say UnknownCommand s
  end.

(** How a run of [main] ends: [quit], an exception nobody catches, or the
    EOFError of [input] when the lines run out. *)
Inductive ending : Type :=
| Quit
| Uncaught (e : exn)
| EndOfInput.

(** The command loop over the lines typed in.  [draw_topology], called
    after every command, only reads [G] and draws; it is left out. *)
Fixpoint main_loop (py_int : string -> option Z) (input : list string)
         (s : session) : ending * session :=
  let prompted := mkSession (sG s) (sflow_table s) (console s ++ [Prompt]) in
  match input with
  | [] => (EndOfInput, prompted)
  | l :: rest =>
    match command py_int (split_space l) prompted with
    | (Ok Break, s') => (Quit, s')
    | (Ok Continue, s') => main_loop py_int rest s'
    | (Raise e, s') => (Uncaught e, s')
    end
  end.

(** [main]: the set-up, then the loop. *)
Definition main (py_int : string -> option Z) (input : list string)
  : ending * session :=
  main_loop py_int input
            (mkSession (G main_world) (flow_table main_world)
                       (map Core (stdout main_world))).

(** A stand-in for [int] in the examples below, which only type the flags
    0 and 1: it reads those two as Python does and is not meant for any
    other string. *)
Definition int_0_1 (s : string) : option Z :=
  if String.eqb s "0" then Some 0
  else if String.eqb s "1" then Some 1
  else None.

(** ** Further predicates *)

(** No edge carries a negative load. *)
Definition loads_nonneg (g : nx.Graph) : Prop :=
  Forall (fun e => 0 <= snd e) (nx.edges g).

(** The same nodes and the same links, whatever the loads. *)
Definition same_shape (g1 g2 : nx.Graph) : Prop :=
  nx.nodes g1 = nx.nodes g2 /\ map fst (nx.edges g1) = map fst (nx.edges g2).

(** The load of every stored edge is at least [base] plus the flows routed
    over it. *)
Definition load_covers (base : node -> node -> Z) (g : nx.Graph) (t : table) : Prop :=
  Forall (fun e => base (fst (fst e)) (snd (fst e)) +
                   flows_on t (fst (fst e)) (snd (fst e)) <= snd e)
         (nx.edges g).

(** The fields of a record that no operation may change once it is stored. *)
Definition routes (f : flow) : bool * bool * path * option path :=
  (priority f, critical f, primary f, backup f).

(** A property of the graph that no load update disturbs. *)
Definition load_blind (Q : nx.Graph -> Prop) : Prop :=
  (forall g p, Q g -> Q (incr_flows g p)) /\
  (forall g p, Q g -> Q (decr_flows g p)).

Definition covered (w : world) : Prop :=
  load_covers (fun _ _ => 0) (G w) (flow_table w).

(** The two properties of a session state that every command keeps. *)
Definition session_ok (s : session) : Prop :=
  table_ok (sflow_table s) = true /\ loads_nonneg (sG s).

(** ** Basic facts *)

Lemma joins_sym u v e : nx.joins u v e = nx.joins v u e.
Proof.
  destruct e as [[a b] n]; simpl. apply orb_comm.
Qed.

Lemma has_edge_sym g u v : nx.has_edge g u v = nx.has_edge g v u.
Proof.
  unfold nx.has_edge. induction (nx.edges g) as [|e l IH]; simpl; [reflexivity|].
  now rewrite IH, joins_sym.
Qed.

Lemma has_node_In g n : nx.has_node g n = true <-> In n (nx.nodes g).
Proof.
  unfold nx.has_node. rewrite existsb_exists. split.
  - intros [x [Hx Heq]]. apply String.eqb_eq in Heq. now subst.
  - intros H. exists n. split; [assumption | apply String.eqb_refl].
Qed.

Lemma last_nonempty_default (a : node) (q : path) d d' :
  last (a :: q) d = last (a :: q) d'.
Proof.
  revert a. induction q as [|b q IH]; intros a; [reflexivity|].
  change (last (b :: q) d = last (b :: q) d'). apply IH.
Qed.

Lemma last_cons (a : node) (q : path) d : last (a :: q) d = last q a.
Proof.
  destruct q as [|b q]; [reflexivity|].
  change (last (b :: q) d = last (b :: q) a). apply last_nonempty_default.
Qed.

Lemma last_In (a : node) (q : path) d : In (last (a :: q) d) (a :: q).
Proof.
  revert a d. induction q as [|b q IH]; intros a d.
  - now left.
  - right. change (last (a :: b :: q) d) with (last (b :: q) d). apply IH.
Qed.

Lemma hops_cons2 u v q : hops (u :: v :: q) = (u, v) :: hops (v :: q).
Proof. reflexivity. Qed.

Lemma hops_In_nodes p u v : In (u, v) (hops p) -> In u p /\ In v p.
Proof.
  induction p as [|a q IH]; simpl; [tauto|].
  destruct q as [|b q]; [simpl; tauto|].
  intros [Heq | Hin].
  - inversion Heq; subst. split; [now left | right; now left].
  - destruct (IH Hin) as [H1 H2]. split; right; assumption.
Qed.

(** ** The enumeration of simple paths *)

Lemma simple_paths_sound g fuel :
  forall cands u dst p,
    ~ In u cands ->
    In p (nx.simple_paths g fuel cands u dst) ->
    from_to u dst p /\ NoDup p /\ incl (tl p) cands /\
    Forall (fun uv => nx.has_edge g (fst uv) (snd uv) = true) (hops p).
Proof.
  induction fuel as [|fuel IH]; intros cands u dst p Hu Hin; simpl in Hin.
  - destruct (String.eqb_spec u dst) as [->|Hne]; [|contradiction].
    destruct Hin as [<-|[]]. repeat split; simpl; auto.
    + constructor; [tauto | constructor].
    + intros x [].
  - destruct (String.eqb_spec u dst) as [->|Hne].
    + destruct Hin as [<-|[]]. repeat split; simpl; auto.
      * constructor; [tauto | constructor].
      * intros x [].
    + apply in_flat_map in Hin. destruct Hin as [v [Hv Hin]].
      destruct (nx.has_edge g u v) eqn:He; [|contradiction].
      apply in_map_iff in Hin. destruct Hin as [q [<- Hq]].
      apply IH in Hq; [|apply remove_In].
      destruct Hq as [[Hhd Hlast] [Hnd [Hincl Hedges]]].
      destruct q as [|v' r]; [discriminate|]. simpl in Hhd.
      injection Hhd as ->. simpl in Hincl.
      assert (Hr : incl r cands).
      { intros x Hx. apply Hincl in Hx. now apply in_remove in Hx. }
      repeat split.
      * rewrite last_cons. rewrite <- Hlast. apply last_nonempty_default.
      * constructor; [|assumption].
        intros [->|Hx]; [contradiction|]. apply Hu. now apply Hr.
      * simpl. intros x [<-|Hx]; [assumption | now apply Hr].
      * rewrite hops_cons2. constructor; assumption.
Qed.

Lemma simple_paths_complete g fuel :
  forall cands u dst p,
    (length cands <= fuel)%nat ->
    from_to u dst p -> NoDup p -> incl (tl p) cands ->
    Forall (fun uv => nx.has_edge g (fst uv) (snd uv) = true) (hops p) ->
    In p (nx.simple_paths g fuel cands u dst).
Proof.
  induction fuel as [|fuel IH]; intros cands u dst p Hlen [Hhd Hlast] Hnd Hincl Hedges;
    (destruct p as [|u' q]; [discriminate|]); simpl in Hhd; injection Hhd as ->;
    simpl in Hincl.
  - destruct q as [|v r].
    + simpl in Hlast. subst dst. simpl. rewrite String.eqb_refl. now left.
    + destruct cands; [|simpl in Hlen; lia].
      exfalso. apply (Hincl v). now left.
  - destruct q as [|v r].
    + simpl in Hlast. subst dst. simpl. rewrite String.eqb_refl. now left.
    + simpl. destruct (String.eqb_spec u dst) as [->|Hne].
      * exfalso. inversion Hnd as [|? ? Hnotin _]; subst. apply Hnotin.
        rewrite last_cons in Hlast. pose proof (last_In v r dst) as HL.
        now rewrite Hlast in HL.
      * apply in_flat_map. exists v. split; [apply Hincl; now left|].
        rewrite hops_cons2 in Hedges. inversion Hedges as [|? ? He Hrest]; subst.
        simpl in He. rewrite He. apply in_map.
        inversion Hnd as [|? ? _ Hndq]; subst.
        inversion Hndq as [|? ? Hvr Hndr]; subst.
        apply IH; auto.
        -- assert (Hv : In v cands) by (apply Hincl; now left).
           pose proof (remove_length_lt string_dec cands v Hv) as Hlt.
           apply Nat.lt_succ_r. eapply Nat.lt_le_trans; eassumption.
        -- split; [reflexivity|]. rewrite (last_cons u).
           apply last_nonempty_default.
        -- simpl. intros x Hx. apply in_in_remove.
           ++ intros ->. contradiction.
           ++ apply Hincl. now right.
Qed.

Lemma all_simple_paths_spec g src dst p :
  nx.has_node g src = true ->
  (In p (nx.all_simple_paths g src dst) <-> simple_path g src dst p).
Proof.
  intros Hsrc. unfold nx.all_simple_paths. split.
  - intros Hin. apply simple_paths_sound in Hin; [|apply remove_In].
    destruct Hin as [Hft [Hnd [Hincl Hedges]]].
    split; [assumption|]. split; [assumption|]. split; [|assumption].
    destruct p as [|a q]; [constructor|].
    destruct Hft as [Hhd _]. simpl in Hhd. injection Hhd as ->.
    constructor; [assumption|]. apply Forall_forall. intros x Hx.
    apply has_node_In. simpl in Hincl. apply Hincl in Hx.
    now apply in_remove in Hx.
  - intros [Hft [Hnd [Hnodes Hedges]]].
    apply simple_paths_complete; auto.
    destruct p as [|a q]; [intros x []|].
    destruct Hft as [Hhd _]. simpl in Hhd. injection Hhd as ->.
    simpl. intros x Hx. apply in_in_remove.
    + intros ->. inversion Hnd; contradiction.
    + apply has_node_In. inversion Hnodes as [|? ? _ Hq]; subst.
      rewrite Forall_forall in Hq. now apply Hq.
Qed.

(** ** Sorting by length *)

Lemma insert_by_length_In p q l :
  In q (nx.insert_by_length p l) <-> q = p \/ In q l.
Proof.
  induction l as [|a l IH]; simpl.
  - intuition congruence.
  - destruct (length p <=? length a)%nat; simpl; [intuition congruence|].
    rewrite IH. tauto.
Qed.

Lemma sort_by_length_In q l : In q (nx.sort_by_length l) <-> In q l.
Proof.
  induction l as [|a l IH]; simpl; [tauto|].
  rewrite insert_by_length_In, IH. intuition congruence.
Qed.

Lemma insert_by_length_sorted p l :
  sorted_by_length l -> sorted_by_length (nx.insert_by_length p l).
Proof.
  unfold sorted_by_length. induction l as [|a l IH]; intros Hs; simpl.
  - constructor; constructor.
  - inversion Hs as [|? ? Hl Ha]; subst.
    destruct (Nat.leb_spec (length p) (length a)) as [Hle|Hgt].
    + constructor; [assumption|]. constructor; [assumption|].
      eapply Forall_impl; [|exact Ha]. simpl. intros; lia.
    + constructor; [now apply IH|]. apply Forall_forall. intros x Hx.
      apply insert_by_length_In in Hx. destruct Hx as [->|Hx]; [lia|].
      rewrite Forall_forall in Ha. now apply Ha.
Qed.

Lemma sort_by_length_sorted l : sorted_by_length (nx.sort_by_length l).
Proof.
  induction l as [|a l IH]; simpl.
  - constructor.
  - now apply insert_by_length_sorted.
Qed.

(** ** What [shortest_simple_paths] returns *)

Lemma shortest_simple_paths_ok g src dst ps :
  nx.shortest_simple_paths g src dst = Ok ps ->
  ps <> [] /\ sorted_by_length ps /\
  forall p, In p ps <-> simple_path g src dst p.
Proof.
  unfold nx.shortest_simple_paths.
  destruct (nx.has_node g src) eqn:Hs; simpl; [|discriminate].
  destruct (nx.has_node g dst) eqn:Hd; simpl; [|discriminate].
  destruct (nx.sort_by_length (nx.all_simple_paths g src dst)) as [|p0 l] eqn:Hsort;
    [discriminate|].
  intros [= <-]. split; [discriminate|]. rewrite <- Hsort. split.
  - apply sort_by_length_sorted.
  - intros p. rewrite sort_by_length_In. now apply all_simple_paths_spec.
Qed.

Lemma shortest_simple_paths_raises g src dst e :
  nx.shortest_simple_paths g src dst = Raise e ->
  (e = NodeNotFound /\ (nx.has_node g src = false \/ nx.has_node g dst = false)) \/
  (e = NetworkXNoPath /\ nx.has_node g src = true /\ nx.has_node g dst = true /\
   forall p, ~ simple_path g src dst p).
Proof.
  unfold nx.shortest_simple_paths.
  destruct (nx.has_node g src) eqn:Hs; simpl; [|intros [= <-]; left; auto].
  destruct (nx.has_node g dst) eqn:Hd; simpl; [|intros [= <-]; left; auto].
  destruct (nx.sort_by_length (nx.all_simple_paths g src dst)) as [|p0 l] eqn:Hsort;
    [|discriminate].
  intros [= <-]. right. repeat split; auto.
  intros p Hp. apply all_simple_paths_spec in Hp; [|assumption].
  apply sort_by_length_In in Hp. rewrite Hsort in Hp. destruct Hp.
Qed.

Lemma simple_path_endpoints g src dst p :
  simple_path g src dst p ->
  nx.has_node g src = true /\ nx.has_node g dst = true.
Proof.
  intros [[Hhd Hlast] [_ [Hnodes _]]].
  destruct p as [|a q]; [discriminate|]. simpl in Hhd. injection Hhd as ->.
  rewrite Forall_forall in Hnodes. split.
  - apply Hnodes. now left.
  - apply Hnodes. rewrite <- Hlast. apply last_In.
Qed.

Lemma shortest_simple_paths_found g src dst p :
  simple_path g src dst p ->
  exists p0 rest, nx.shortest_simple_paths g src dst = Ok (p0 :: rest).
Proof.
  intros Hp. destruct (nx.shortest_simple_paths g src dst) as [ps|e] eqn:H.
  - destruct (shortest_simple_paths_ok _ _ _ _ H) as [Hne _].
    destruct ps as [|p0 rest]; [congruence|]. now exists p0, rest.
  - exfalso. destruct (simple_path_endpoints _ _ _ _ Hp) as [Hs Hd].
    destruct (shortest_simple_paths_raises _ _ _ _ H)
      as [[_ [Hf|Hf]]|[_ [_ [_ Hno]]]]; try congruence.
    now apply (Hno p).
Qed.

(** ** Walks shorten to simple paths *)

Lemma is_walk_tail g a q : is_walk g (a :: q) -> is_walk g q.
Proof.
  intros [Hn He]. split.
  - now inversion Hn.
  - destruct q as [|b q]; [constructor|]. rewrite hops_cons2 in He.
    now inversion He.
Qed.

Lemma is_walk_suffix g l1 l2 : is_walk g (l1 ++ l2) -> is_walk g l2.
Proof.
  induction l1 as [|a l1 IH]; simpl; [auto|].
  intros H. apply IH. eapply is_walk_tail. exact H.
Qed.

Lemma last_app_cons (l1 : path) a l2 d :
  last (l1 ++ a :: l2) d = last (a :: l2) d.
Proof.
  induction l1 as [|b l1 IH]; [reflexivity|].
  simpl app. rewrite last_cons. rewrite <- IH.
  destruct l1; simpl app; apply last_nonempty_default.
Qed.

Lemma connected_simple_path g src dst :
  connected g src dst <-> exists p, simple_path g src dst p.
Proof.
  split.
  - intros [p [Hft Hw]]. revert src Hft Hw.
    induction p as [|a q IH]; intros src [Hhd Hlast] Hw; [discriminate|].
    simpl in Hhd. injection Hhd as ->.
    destruct q as [|v r].
    + simpl in Hlast. subst dst. exists [src]. split; [split; reflexivity|].
      split; [constructor; [intros []|constructor] | assumption].
    + destruct (IH v) as [q [[Hqhd Hqlast] [Hqnd Hqw]]].
      * split; [reflexivity|]. rewrite last_cons in Hlast. rewrite <- Hlast.
        apply last_nonempty_default.
      * eapply is_walk_tail. exact Hw.
      * destruct (in_dec string_dec src q) as [Hin|Hnin].
        -- apply in_split in Hin. destruct Hin as [l1 [l2 ->]].
           exists (src :: l2). split; [|split].
           ++ split; [reflexivity|]. rewrite <- Hqlast.
              rewrite last_app_cons. apply last_nonempty_default.
           ++ apply NoDup_app_remove_l in Hqnd. exact Hqnd.
           ++ eapply is_walk_suffix. exact Hqw.
        -- exists (src :: q). split; [|split].
           ++ split; [reflexivity|]. rewrite last_cons. rewrite <- Hqlast.
              destruct q; [discriminate|]. apply last_nonempty_default.
           ++ now constructor.
           ++ destruct Hw as [Hn He]. destruct Hqw as [Hqn Hqe]. split.
              ** constructor; [now inversion Hn | assumption].
              ** destruct q as [|v' q']; [constructor|].
                 simpl in Hqhd. injection Hqhd as ->.
                 rewrite hops_cons2. constructor; [|assumption].
                 rewrite hops_cons2 in He. now inversion He.
  - intros [p [Hft [_ Hw]]]. now exists p.
Qed.

(** ** The cost of a path *)

Lemma num_flows_has_edge g u v :
  nx.has_edge g u v = true <-> exists n, nx.num_flows g u v = Some n.
Proof.
  unfold nx.has_edge, nx.num_flows.
  induction (nx.edges g) as [|e l IH]; simpl.
  - split; [discriminate | intros [n H]; discriminate].
  - destruct (nx.joins u v e) eqn:He; simpl.
    + split; [|reflexivity]. intros _. destruct e as [[a b] n]. now exists n.
    + exact IH.
Qed.

Lemma hop_loads_edges g hs :
  Forall (fun uv => nx.has_edge g (fst uv) (snd uv) = true) hs ->
  hop_loads g hs = Ok (map (fun xy => load g (fst xy) (snd xy)) hs).
Proof.
  induction hs as [|[u v] hs IH]; intros H; [reflexivity|].
  inversion H as [|? ? He Hrest]; subst. simpl in *.
  apply num_flows_has_edge in He. destruct He as [n Hn].
  unfold load at 1. rewrite Hn, (IH Hrest). reflexivity.
Qed.

Lemma path_cost_walk g p :
  hops p <> [] ->
  Forall (fun uv => nx.has_edge g (fst uv) (snd uv) = true) (hops p) ->
  path_cost g p = Ok (bottleneck g p).
Proof.
  intros Hne He. unfold path_cost, bottleneck.
  rewrite (hop_loads_edges _ _ He).
  destruct (hops p) as [|[u v] hs]; [congruence|]. reflexivity.
Qed.

Lemma simple_path_hops g src dst p :
  simple_path g src dst p -> src <> dst -> hops p <> [].
Proof.
  intros [[Hhd Hlast] _] Hne.
  destruct p as [|a [|b r]]; [discriminate| |discriminate].
  simpl in *. congruence.
Qed.

Lemma min_from_first_minimal g cost :
  forall ps best,
    (forall q, In q (best :: ps) -> path_cost g q = Ok (cost q)) ->
    exists p before after,
      min_from g best (cost best) ps = Ok p /\
      best :: ps = before ++ p :: after /\
      Forall (fun q => cost p < cost q) before /\
      Forall (fun q => cost p <= cost q) after.
Proof.
  induction ps as [|p' ps IH]; intros best Hcost.
  - exists best, [], []. simpl. repeat split; constructor.
  - simpl. rewrite (Hcost p') by (right; now left).
    destruct (Z.ltb_spec (cost p') (cost best)) as [Hlt|Hge].
    + destruct (IH p') as [p [before [after [Hmin [Heq [Hb Ha]]]]]].
      { intros q Hq. apply Hcost. now right. }
      exists p, (best :: before), after. rewrite Hmin, Heq.
      repeat split; auto. constructor; [|assumption].
      destruct before as [|b0 before'].
      * simpl in Heq. injection Heq as -> _. assumption.
      * simpl in Heq. injection Heq as <- _. inversion Hb; subst. lia.
    + destruct (IH best) as [p [before [after [Hmin [Heq [Hb Ha]]]]]].
      { intros q [<-|Hq]; apply Hcost; [now left | right; now right]. }
      rewrite Hmin. destruct before as [|b0 before'].
      * simpl in Heq. injection Heq as <- <-.
        exists best, [], (p' :: ps). repeat split; auto.
      * simpl in Heq. injection Heq as <- ->.
        exists p, (best :: p' :: before'), after. repeat split; auto.
        inversion Hb; subst. constructor; [assumption|].
        constructor; [lia | assumption].
Qed.

Lemma sorted_head_shortest p0 rest q :
  sorted_by_length (p0 :: rest) -> In q (p0 :: rest) ->
  (length p0 <= length q)%nat.
Proof.
  intros Hs [<-|Hq]; [apply Nat.le_refl|].
  inversion Hs as [|? ? _ Hall]; subst. rewrite Forall_forall in Hall.
  now apply Hall.
Qed.

(** * The path selector *)

Lemma compute_path_run src dst priority critical w :
  run (compute_path src dst priority critical) w = w.
Proof.
  unfold run, compute_path, bind, attempt, lift, get_G, ret, raise. simpl.
  destruct (nx.shortest_simple_paths (G w) src dst) as [[|p0 rest]|[]]; simpl;
    try reflexivity.
  destruct priority; simpl; [reflexivity|].
  destruct (path_cost (G w) p0); simpl; [|reflexivity].
  destruct (min_from (G w) p0 a rest); reflexivity.
Qed.

Lemma compute_path_result src dst priority critical w :
  result (compute_path src dst priority critical) w =
  match nx.shortest_simple_paths (G w) src dst with
  | Raise NetworkXNoPath => Ok None
  | Raise e => Raise e
  | Ok [] => Ok None
  | Ok (p0 :: rest) =>
    if priority then Ok (Some p0)
    else match min_by_cost (G w) (p0 :: rest) with
         | Ok p => Ok (Some p)
         | Raise e => Raise e
         end
  end.
Proof.
  unfold result, compute_path, bind, attempt, lift, get_G, ret, raise. simpl.
  destruct (nx.shortest_simple_paths (G w) src dst) as [[|p0 rest]|[]]; simpl;
    try reflexivity.
  destruct priority; simpl; [reflexivity|].
  destruct (path_cost (G w) p0); simpl; [|reflexivity].
  destruct (min_from (G w) p0 a rest); reflexivity.
Qed.

Lemma min_from_In g :
  forall ps best c p, min_from g best c ps = Ok p -> In p (best :: ps).
Proof.
  induction ps as [|q ps IH]; intros best c p H; simpl in H.
  - injection H as <-. now left.
  - destruct (path_cost g q) as [k|]; [|discriminate].
    destruct (k <? c); apply IH in H; simpl in *; tauto.
Qed.

Lemma compute_path_simple src dst priority critical w p :
  result (compute_path src dst priority critical) w = Ok (Some p) ->
  simple_path (G w) src dst p.
Proof.
  rewrite compute_path_result.
  destruct (nx.shortest_simple_paths (G w) src dst) as [[|p0 rest]|e] eqn:Hps;
    [discriminate| |destruct e; discriminate].
  destruct (shortest_simple_paths_ok _ _ _ _ Hps) as [_ [_ Hall]].
  destruct priority.
  - intros [= <-]. apply Hall. now left.
  - unfold min_by_cost. destruct (path_cost (G w) p0) as [c|]; [|discriminate].
    destruct (min_from (G w) p0 c rest) as [q|] eqn:Hmin; [|discriminate].
    intros [= <-]. apply Hall. eapply min_from_In. exact Hmin.
Qed.

(** X23.  For [src] and [dst] that are connected in the topology, the
    enumeration lists exactly the simple paths from [src] to [dst] in
    non-decreasing length, and with [priority] set [compute_path] returns its
    first path, which no simple path undercuts in length.  Without
    [priority], and for distinct [src] and [dst], [compute_path] returns the
    first path of the enumeration whose bottleneck load is minimal (strictly
    smaller than that of every earlier path, at most that of every later
    one). *)
Theorem compute_path_policy w src dst critical :
  connected (G w) src dst ->
  exists paths,
    nx.shortest_simple_paths (G w) src dst = Ok paths /\
    sorted_by_length paths /\
    (forall q, In q paths <-> simple_path (G w) src dst q) /\
    (exists p0 rest,
        paths = p0 :: rest /\
        result (compute_path src dst true critical) w = Ok (Some p0) /\
        forall q, simple_path (G w) src dst q -> (length p0 <= length q)%nat) /\
    (src <> dst ->
     exists p before after,
       result (compute_path src dst false critical) w = Ok (Some p) /\
       paths = before ++ p :: after /\
       Forall (fun q => bottleneck (G w) p < bottleneck (G w) q) before /\
       Forall (fun q => bottleneck (G w) p <= bottleneck (G w) q) after).
Proof.
  intros Hconn. apply connected_simple_path in Hconn.
  destruct Hconn as [p Hp].
  destruct (shortest_simple_paths_found _ _ _ _ Hp) as [p0 [rest Hps]].
  destruct (shortest_simple_paths_ok _ _ _ _ Hps) as [_ [Hsorted Hall]].
  exists (p0 :: rest). split; [exact Hps|]. split; [assumption|].
  split; [exact Hall|]. split.
  - exists p0, rest. split; [reflexivity|]. split.
    + rewrite compute_path_result, Hps. reflexivity.
    + intros q Hq. apply Hall in Hq. eapply sorted_head_shortest; eassumption.
  - intros Hne.
    assert (Hcost : forall q, In q (p0 :: rest) ->
                              path_cost (G w) q = Ok (bottleneck (G w) q)).
    { intros q Hq. apply Hall in Hq. apply path_cost_walk.
      - eapply simple_path_hops; eassumption.
      - apply Hq. }
    destruct (min_from_first_minimal (G w) (bottleneck (G w)) rest p0 Hcost)
      as [m [before [after [Hmin [Heq [Hb Ha]]]]]].
    exists m, before, after. repeat split; try assumption.
    rewrite compute_path_result, Hps. unfold min_by_cost.
    rewrite (Hcost p0) by now left. rewrite Hmin. reflexivity.
Qed.

Lemma compute_path_policy_witness :
  exists paths,
    nx.shortest_simple_paths main_G "A" "B" = Ok paths /\
    sorted_by_length paths /\
    (forall q, In q paths <-> simple_path main_G "A" "B" q) /\
    (exists p0 rest,
        paths = p0 :: rest /\
        result (compute_path "A" "B" true false) (mkWorld main_G [] []) = Ok (Some p0) /\
        forall q, simple_path main_G "A" "B" q -> (length p0 <= length q)%nat) /\
    (exists p before after,
        result (compute_path "A" "B" false false) (mkWorld main_G [] []) = Ok (Some p) /\
        paths = before ++ p :: after /\
        Forall (fun q => bottleneck main_G p < bottleneck main_G q) before /\
        Forall (fun q => bottleneck main_G p <= bottleneck main_G q) after).
Proof.
  destruct (compute_path_policy (mkWorld main_G [] []) "A" "B" false)
    as [paths [H1 [H2 [H3 [H4 H5]]]]].
  - exists ["A"; "E"; "B"]. split; [split; reflexivity|].
    split; repeat constructor.
  - exists paths. split; [exact H1|]. split; [exact H2|]. split; [exact H3|].
    split; [exact H4|]. apply H5. discriminate.
Defined.

(** C3.  A node of the topology is connected to itself, and for [src = dst]
    the enumeration holds the one-node path alone; [compute_path] without
    [priority] does not return that path, the minimum over the enumerated
    paths: the path has no edge to take a maximum over, and the call raises
    ValueError. *)
Lemma compute_path_same_endpoints_raises :
  connected main_G "A" "A" /\
  nx.shortest_simple_paths main_G "A" "A" = Ok [["A"]] /\
  result (compute_path "A" "A" false false) (mkWorld main_G [] []) = Raise ValueError.
Proof.
  split; [|split; reflexivity].
  exists ["A"]. split; [split; reflexivity|]. split; repeat constructor.
Qed.

(** C5.  With a source that is not in the topology [compute_path] raises
    NodeNotFound, and so does the [inject_flow] that called it. *)
Theorem compute_path_absent_node_raises :
  nx.has_node main_G "Z" = false /\
  result (compute_path "Z" "B" true false) (mkWorld main_G [] []) = Raise NodeNotFound /\
  result (inject_flow "Z" "B" true false) (mkWorld main_G [] []) = Raise NodeNotFound.
Proof.
  repeat split; reflexivity.
Qed.

(** The other half of C5 holds: two nodes of the topology with no path
    between them give [None]. *)
Lemma compute_path_no_path w src dst priority critical :
  nx.has_node (G w) src = true -> nx.has_node (G w) dst = true ->
  ~ connected (G w) src dst ->
  result (compute_path src dst priority critical) w = Ok None.
Proof.
  intros Hs Hd Hno. rewrite compute_path_result.
  destruct (nx.shortest_simple_paths (G w) src dst) as [ps|e] eqn:Hps.
  - exfalso. destruct (shortest_simple_paths_ok _ _ _ _ Hps) as [Hne [_ Hall]].
    destruct ps as [|p0 rest]; [congruence|].
    apply Hno. apply connected_simple_path. exists p0. apply Hall. now left.
  - destruct (shortest_simple_paths_raises _ _ _ _ Hps)
      as [[_ [Hf|Hf]]|[-> _]]; try congruence.
Qed.

(** * The backup planner *)

Lemma copy_eq g : nx.copy g = g.
Proof. now destruct g. Qed.

Lemma joins_same_link u v a b n : nx.joins u v (a, b, n) = same_link u v a b.
Proof. reflexivity. Qed.

Lemma touches_existsb x y p :
  touches x y p = existsb (fun h => same_link (fst h) (snd h) x y) (hops p).
Proof.
  unfold touches, on_path. induction (hops p) as [|[a b] hs IH]; [reflexivity|].
  simpl. rewrite <- IH. unfold pair_eqb, same_link. simpl.
  destruct (String.eqb x a), (String.eqb y b), (String.eqb y a), (String.eqb x b);
    simpl; try reflexivity;
    destruct (existsb _ hs); simpl; try reflexivity;
    destruct (existsb _ hs); reflexivity.
Qed.

Lemma touches_sym x y p : touches x y p = touches y x p.
Proof. unfold touches. apply orb_comm. Qed.

Lemma existsb_pointwise {A} (f h : A -> bool) l :
  (forall x, f x = h x) -> existsb f l = existsb h l.
Proof.
  intros H. induction l as [|a l IH]; simpl; [reflexivity|].
  now rewrite H, IH.
Qed.

Lemma filter_all_true {A} (f : A -> bool) l :
  existsb (fun x => negb (f x)) l = false -> filter f l = l.
Proof.
  induction l as [|a l IH]; simpl; [reflexivity|].
  intros H. apply orb_false_iff in H. destruct H as [Ha Hl].
  apply negb_false_iff in Ha. rewrite Ha, (IH Hl). reflexivity.
Qed.

Lemma filter_twice {A} (f h : A -> bool) l :
  filter f (filter h l) = filter (fun x => h x && f x) l.
Proof.
  induction l as [|a l IH]; simpl; [reflexivity|].
  destruct (h a); simpl; [|exact IH]. destruct (f a); now rewrite IH.
Qed.

Lemma guarded_remove_edge c u v :
  (if nx.has_edge c u v then nx.remove_edge c u v else c) = nx.remove_edge c u v.
Proof.
  destruct (nx.has_edge c u v) eqn:He; [reflexivity|].
  unfold nx.remove_edge. rewrite filter_all_true.
  - now destruct c.
  - unfold nx.has_edge in He. rewrite <- He. apply existsb_pointwise.
    intros e. apply negb_involutive.
Qed.

Lemma remove_hops_filter hs :
  forall g,
    fold_left (fun c uv => if nx.has_edge c (fst uv) (snd uv)
                           then nx.remove_edge c (fst uv) (snd uv) else c) hs g =
    nx.mkGraph (nx.nodes g)
      (filter (fun e => negb (existsb (fun h => nx.joins (fst h) (snd h) e) hs))
              (nx.edges g)).
Proof.
  induction hs as [|[u v] hs IH]; intros g; simpl.
  - rewrite filter_all_true; [now destruct g|].
    now induction (nx.edges g).
  - rewrite guarded_remove_edge, IH. simpl. f_equal.
    rewrite filter_twice. apply filter_ext. intros e.
    now rewrite negb_orb.
Qed.

(** The loop of [compute_backup_path] leaves exactly the edges that the
    primary path does not use. *)
Lemma remove_path_edges_spec g p :
  remove_path_edges g p = without_path_edges g p.
Proof.
  unfold remove_path_edges, without_path_edges. rewrite remove_hops_filter.
  f_equal. apply filter_ext. intros [[a b] n]. simpl. f_equal.
  rewrite touches_existsb. apply existsb_pointwise. intros [u v]. reflexivity.
Qed.

Lemma same_link_touches x y a b p :
  same_link x y a b = true -> touches x y p = touches a b p.
Proof.
  unfold same_link. intros Hs. apply orb_true_iff in Hs.
  destruct Hs as [Hs|Hs]; apply andb_true_iff in Hs; destruct Hs as [H1 H2];
    apply String.eqb_eq in H1, H2; subst; [reflexivity | apply touches_sym].
Qed.

Lemma has_edge_without g p x y :
  nx.has_edge (without_path_edges g p) x y =
  nx.has_edge g x y && negb (touches x y p).
Proof.
  unfold nx.has_edge, without_path_edges. cbn [nx.edges].
  induction (nx.edges g) as [|[[a b] n] l IH]; [reflexivity|].
  cbn [filter existsb fst snd].
  destruct (touches a b p) eqn:Ht; cbn [negb existsb]; rewrite IH;
    rewrite joins_same_link;
    (destruct (same_link x y a b) eqn:Hs; [|reflexivity]);
    rewrite (same_link_touches _ _ _ _ p Hs), Ht; cbn [negb orb andb].
  - now rewrite andb_false_r.
  - reflexivity.
Qed.

Lemma on_path_In u v p : on_path u v p = true <-> In (u, v) (hops p).
Proof.
  unfold on_path. rewrite existsb_exists. split.
  - intros [[a b] [Hin Heq]]. unfold pair_eqb in Heq. simpl in Heq.
    apply andb_true_iff in Heq. destruct Heq as [H1 H2].
    apply String.eqb_eq in H1, H2. now subst.
  - intros Hin. exists (u, v). split; [assumption|].
    unfold pair_eqb. simpl. now rewrite !String.eqb_refl.
Qed.

Lemma touches_false u v p :
  touches u v p = false <-> ~ In (u, v) (hops p) /\ ~ In (v, u) (hops p).
Proof.
  unfold touches. rewrite orb_false_iff.
  rewrite <- !on_path_In. split; intros [H1 H2].
  - split; congruence.
  - split; apply not_true_is_false; assumption.
Qed.

Lemma simple_path_without g p src dst b :
  simple_path (without_path_edges g p) src dst b ->
  simple_path g src dst b /\
  forall u v, In (u, v) (hops b) -> touches u v p = false.
Proof.
  intros [Hft [Hnd [Hn He]]]. rewrite Forall_forall in He. split.
  - split; [assumption|]. split; [assumption|]. split; [exact Hn|].
    apply Forall_forall. intros uv Huv. specialize (He uv Huv).
    rewrite has_edge_without in He. now apply andb_true_iff in He.
  - intros u v Huv. specialize (He (u, v) Huv). simpl in He.
    rewrite has_edge_without in He. apply andb_true_iff in He.
    now apply negb_true_iff.
Qed.

Lemma compute_backup_path_run p w : run (compute_backup_path p) w = w.
Proof.
  unfold run, compute_backup_path, bind, attempt, lift, get_G, ret, raise. simpl.
  destruct p as [|first rest]; [reflexivity|]. simpl.
  destruct (nx.shortest_path _ first _) as [b|[]]; reflexivity.
Qed.

Lemma compute_backup_path_result p w :
  result (compute_backup_path p) w =
  match p with
  | [] => Raise IndexError
  | first :: _ =>
    match nx.shortest_path (without_path_edges (G w) p) first (last p first) with
    | Raise NetworkXNoPath => Ok None
    | Raise e => Raise e
    | Ok b => Ok (Some b)
    end
  end.
Proof.
  unfold result, compute_backup_path, bind, attempt, lift, get_G, ret, raise. simpl.
  rewrite copy_eq, remove_path_edges_spec.
  destruct p as [|first rest]; [reflexivity|]. simpl.
  destruct (nx.shortest_path _ first _) as [b|[]]; reflexivity.
Qed.

(** What [compute_backup_path] answers for a path between two nodes of the
    topology. *)
Lemma compute_backup_path_spec w src dst p :
  from_to src dst p ->
  nx.has_node (G w) src = true -> nx.has_node (G w) dst = true ->
  exists bk,
    result (compute_backup_path p) w = Ok bk /\
    (bk = None <-> ~ connected (without_path_edges (G w) p) src dst) /\
    (forall b, bk = Some b ->
               simple_path (G w) src dst b /\
               (forall q, simple_path (without_path_edges (G w) p) src dst q ->
                          (length b <= length q)%nat) /\
               forall u v, In (u, v) (hops b) ->
                           ~ In (u, v) (hops p) /\ ~ In (v, u) (hops p)).
Proof.
  intros [Hhd Hlast] Hs Hd. rewrite compute_backup_path_result.
  destruct p as [|first rest]; [discriminate|].
  simpl in Hhd. injection Hhd as ->.
  rewrite Hlast. set (g' := without_path_edges (G w) (src :: rest)).
  unfold nx.shortest_path.
  destruct (nx.shortest_simple_paths g' src dst) as [ps|e] eqn:Hps.
  - destruct (shortest_simple_paths_ok _ _ _ _ Hps) as [Hne [Hsorted Hall]].
    destruct ps as [|b ps]; [congruence|].
    exists (Some b). split; [reflexivity|]. split.
    + split; [discriminate|]. intros Hno. exfalso. apply Hno.
      apply connected_simple_path. exists b. apply Hall. now left.
    + intros b' [= <-].
      assert (Hb : simple_path g' src dst b) by (apply Hall; now left).
      destruct (simple_path_without _ _ _ _ _ Hb) as [Hb1 Hb2].
      split; [assumption|]. split.
      * intros q Hq. apply Hall in Hq. eapply sorted_head_shortest; eassumption.
      * intros u v Huv. apply touches_false. now apply Hb2.
  - destruct (shortest_simple_paths_raises _ _ _ _ Hps)
      as [[_ [Hf|Hf]]|[-> [_ [_ Hno]]]].
    + unfold g', nx.has_node in Hf. simpl in Hf. unfold nx.has_node in Hs. congruence.
    + unfold g', nx.has_node in Hf. simpl in Hf. unfold nx.has_node in Hd. congruence.
    + exists None. split; [reflexivity|]. split.
      * split; [|reflexivity]. intros _ Hc.
        apply connected_simple_path in Hc. destruct Hc as [q Hq].
        now apply (Hno q).
      * discriminate.
Qed.

(** * Installing and removing flows *)

Lemma M_eta {A} (m : M A) w : m w = (result m w, run m w).
Proof. unfold result, run. now destruct (m w). Qed.

Lemma key_eqb_eq a b : key_eqb a b = true <-> a = b.
Proof.
  destruct a as [a1 a2], b as [b1 b2]. unfold key_eqb. simpl.
  rewrite andb_true_iff, !String.eqb_eq. split.
  - intros [-> ->]. reflexivity.
  - intros [= -> ->]. auto.
Qed.

Lemma key_eqb_refl a : key_eqb a a = true.
Proof. now apply key_eqb_eq. Qed.

Lemma key_eqb_neq a b : key_eqb a b = false <-> a <> b.
Proof.
  rewrite <- key_eqb_eq. destruct (key_eqb a b); split; congruence.
Qed.

Lemma dict_get_set_same k f t : dict_get k (dict_set k f t) = Some f.
Proof.
  induction t as [|[k' f'] t IH]; simpl.
  - now rewrite key_eqb_refl.
  - destruct (key_eqb k k') eqn:Hk; simpl; rewrite Hk; [reflexivity | exact IH].
Qed.

Lemma dict_get_set_other k k' f t :
  k' <> k -> dict_get k' (dict_set k f t) = dict_get k' t.
Proof.
  intros Hne. induction t as [|[k0 f0] t IH]; simpl.
  - apply key_eqb_neq in Hne. now rewrite Hne.
  - destruct (key_eqb k k0) eqn:Hk; simpl.
    + apply key_eqb_eq in Hk. subst k0. apply key_eqb_neq in Hne.
      now rewrite Hne.
    + now rewrite IH.
Qed.

Lemma dict_set_keys k f t old :
  dict_get k t = Some old -> map fst (dict_set k f t) = map fst t.
Proof.
  induction t as [|[k' f'] t IH]; simpl; [discriminate|].
  destruct (key_eqb k k'); simpl; [reflexivity|].
  intros H. now rewrite IH.
Qed.

(** [inject_flow], step by step. *)
Lemma inject_flow_unfold src dst priority critical w :
  inject_flow src dst priority critical w =
  match result (compute_path src dst priority critical) w with
  | Raise e => (Raise e, w)
  | Ok None =>
    (Ok tt, mkWorld (G w) (flow_table w) (stdout w ++ [FailedToFindPath src dst]))
  | Ok (Some p) =>
    match (if critical then result (compute_backup_path p) w else Ok None) with
    | Raise e => (Raise e, w)
    | Ok bk =>
      (Ok tt,
       mkWorld (incr_flows (G w) p)
               (dict_set (src, dst) (mkFlow priority critical p bk PRIMARY)
                         (flow_table w))
               (stdout w))
    end
  end.
Proof.
  unfold inject_flow, bind.
  rewrite (M_eta (compute_path src dst priority critical) w), compute_path_run.
  destruct (result (compute_path src dst priority critical) w) as [[p|]|e];
    [|reflexivity|reflexivity].
  destruct critical.
  - rewrite (M_eta (compute_backup_path p) w), compute_backup_path_run.
    destruct (result (compute_backup_path p) w) as [bk|e]; reflexivity.
  - reflexivity.
Qed.

(** A path chosen by [compute_path] always gets an answer from
    [compute_backup_path]. *)
Lemma compute_backup_path_after_compute_path w src dst priority critical p :
  result (compute_path src dst priority critical) w = Ok (Some p) ->
  exists bk,
    result (compute_backup_path p) w = Ok bk /\
    (bk = None <-> ~ connected (without_path_edges (G w) p) src dst) /\
    (forall b, bk = Some b ->
               simple_path (G w) src dst b /\
               (forall q, simple_path (without_path_edges (G w) p) src dst q ->
                          (length b <= length q)%nat) /\
               forall u v, In (u, v) (hops b) ->
                           ~ In (u, v) (hops p) /\ ~ In (v, u) (hops p)).
Proof.
  intros Hp. apply compute_path_simple in Hp.
  destruct (simple_path_endpoints _ _ _ _ Hp) as [Hs Hd].
  apply compute_backup_path_spec; try assumption. apply Hp.
Qed.

(** C4.  For a primary path [p] chosen for a critical flow from [src] to
    [dst], [compute_backup_path] returns normally; it returns [None] exactly
    when [dst] cannot be reached from [src] once the edges of [p] are taken
    out of the topology; a path it returns is a simple path of the topology
    from [src] to [dst] no hop of which is a hop of [p] in either direction;
    and [inject_flow] stores that answer as the backup of the flow. *)
Theorem backup_edge_disjoint w src dst priority p :
  result (compute_path src dst priority true) w = Ok (Some p) ->
  exists bk,
    result (compute_backup_path p) w = Ok bk /\
    (bk = None <-> ~ connected (without_path_edges (G w) p) src dst) /\
    (forall b, bk = Some b ->
               simple_path (G w) src dst b /\
               forall u v, In (u, v) (hops b) ->
                           ~ In (u, v) (hops p) /\ ~ In (v, u) (hops p)) /\
    dict_get (src, dst) (flow_table (run (inject_flow src dst priority true) w)) =
    Some (mkFlow priority true p bk PRIMARY).
Proof.
  intros Hp.
  destruct (compute_backup_path_after_compute_path _ _ _ _ _ _ Hp)
    as [bk [Hbk [Hnone Hsome]]].
  exists bk. split; [assumption|]. split; [assumption|]. split.
  - intros b Hb. destruct (Hsome b Hb) as [H1 [_ H2]]. now split.
  - unfold run. rewrite inject_flow_unfold, Hp, Hbk. simpl.
    apply dict_get_set_same.
Qed.

Lemma backup_edge_disjoint_witness :
  exists bk,
    result (compute_backup_path ["A"; "C"]) (mkWorld main_G [] []) = Ok bk /\
    (bk = None <-> ~ connected (without_path_edges main_G ["A"; "C"]) "A" "C") /\
    (forall b, bk = Some b ->
               simple_path main_G "A" "C" b /\
               forall u v, In (u, v) (hops b) ->
                           ~ In (u, v) (hops ["A"; "C"]) /\
                           ~ In (v, u) (hops ["A"; "C"])) /\
    dict_get ("A", "C")
             (flow_table (run (inject_flow "A" "C" true true) (mkWorld main_G [] []))) =
    Some (mkFlow true true ["A"; "C"] bk PRIMARY).
Proof.
  apply (backup_edge_disjoint (mkWorld main_G [] []) "A" "C" true ["A"; "C"]).
  reflexivity.
Defined.

(** C9.  [compute_path] and [compute_backup_path] leave the topology, the
    flow table and the output as they found them, whatever they return. *)
Theorem queries_leave_state_unchanged w src dst priority critical p :
  run (compute_path src dst priority critical) w = w /\
  run (compute_backup_path p) w = w.
Proof.
  split; [apply compute_path_run | apply compute_backup_path_run].
Qed.

(** C10.  [compute_path] returns the same result for both values of
    [critical]; installing the flow as critical or not leaves the same
    topology and the same output, and the two flow tables have the same keys
    in the same order and agree, record by record, on [priority], [primary]
    and [active]. *)
Theorem critical_does_not_change_primary w src dst prio :
  compute_path src dst prio true w = compute_path src dst prio false w /\
  let wt := run (inject_flow src dst prio true) w in
  let wf := run (inject_flow src dst prio false) w in
  result (inject_flow src dst prio true) w =
  result (inject_flow src dst prio false) w /\
  G wt = G wf /\
  stdout wt = stdout wf /\
  map fst (flow_table wt) = map fst (flow_table wf) /\
  forall k,
    option_map (fun f => (priority f, primary f, active f)) (dict_get k (flow_table wt)) =
    option_map (fun f => (priority f, primary f, active f)) (dict_get k (flow_table wf)).
Proof.
  split; [reflexivity|]. unfold run, result. rewrite !inject_flow_unfold.
  change (result (compute_path src dst prio false) w)
    with (result (compute_path src dst prio true) w).
  destruct (result (compute_path src dst prio true) w) as [[p|]|e] eqn:Hp;
    simpl; try (repeat split; reflexivity).
  destruct (compute_backup_path_after_compute_path _ _ _ _ _ _ Hp)
    as [bk [Hbk _]].
  rewrite Hbk. simpl. repeat split.
  - generalize (flow_table w). intros t.
    induction t as [|[k' f'] t IH]; simpl; [reflexivity|].
    destruct (key_eqb (src, dst) k'); simpl; [reflexivity | now rewrite IH].
  - intros k. destruct (key_eqb k (src, dst)) eqn:Hk.
    + apply key_eqb_eq in Hk. subst k. now rewrite !dict_get_set_same.
    + apply key_eqb_neq in Hk. now rewrite !dict_get_set_other.
Qed.

(** C6.  An install that finds no path, a removal of a key that is not in
    the table and a failure of a link that is not in the topology all
    return normally and leave the topology and the flow table as they
    were. *)
Theorem errors_leave_state_unchanged w :
  (forall src dst prio crit,
      result (compute_path src dst prio crit) w = Ok None ->
      result (inject_flow src dst prio crit) w = Ok tt /\
      G (run (inject_flow src dst prio crit) w) = G w /\
      flow_table (run (inject_flow src dst prio crit) w) = flow_table w) /\
  (forall src dst,
      dict_get (src, dst) (flow_table w) = None ->
      result (remove_flow src dst) w = Ok tt /\
      G (run (remove_flow src dst) w) = G w /\
      flow_table (run (remove_flow src dst) w) = flow_table w) /\
  (forall u v,
      nx.has_edge (G w) u v = false ->
      result (fail_link u v) w = Ok tt /\
      G (run (fail_link u v) w) = G w /\
      flow_table (run (fail_link u v) w) = flow_table w).
Proof.
  split; [|split].
  - intros src dst prio crit H. unfold run, result.
    rewrite inject_flow_unfold, H. simpl. auto.
  - intros src dst H. unfold run, result, remove_flow, bind, get_flow_table.
    simpl. rewrite H. simpl. auto.
  - intros u v H. unfold run, result, fail_link, bind, get_G.
    simpl. rewrite H. simpl. auto.
Qed.

Lemma errors_leave_state_unchanged_witness :
  (result (inject_flow "D" "A" false false) isolated_D = Ok tt /\
   G (run (inject_flow "D" "A" false false) isolated_D) = G isolated_D /\
   flow_table (run (inject_flow "D" "A" false false) isolated_D) =
   flow_table isolated_D) /\
  (result (remove_flow "D" "A") isolated_D = Ok tt /\
   G (run (remove_flow "D" "A") isolated_D) = G isolated_D /\
   flow_table (run (remove_flow "D" "A") isolated_D) = flow_table isolated_D) /\
  (result (fail_link "D" "E") isolated_D = Ok tt /\
   G (run (fail_link "D" "E") isolated_D) = G isolated_D /\
   flow_table (run (fail_link "D" "E") isolated_D) = flow_table isolated_D).
Proof.
  destruct (errors_leave_state_unchanged isolated_D) as [H1 [H2 H3]].
  split; [|split].
  - apply (H1 "D" "A" false false). reflexivity.
  - apply (H2 "D" "A"). reflexivity.
  - apply (H3 "D" "E"). reflexivity.
Defined.

(** * Load updates along a path *)

Lemma map_unchanged {A} (f : A -> A) l :
  (forall x, In x l -> f x = x) -> map f l = l.
Proof.
  induction l as [|a l IH]; simpl; intros H; [reflexivity|].
  rewrite H by now left. rewrite IH; [reflexivity|]. intros x Hx. apply H. now right.
Qed.

Lemma guarded_update f g u v :
  (if nx.has_edge g u v then nx.update_num_flows f g u v else g) =
  nx.update_num_flows f g u v.
Proof.
  destruct (nx.has_edge g u v) eqn:He; [reflexivity|].
  unfold nx.update_num_flows. rewrite map_unchanged; [now destruct g|].
  intros e Hin. destruct (nx.joins u v e) eqn:Hj; [|reflexivity].
  exfalso. unfold nx.has_edge in He.
  assert (existsb (nx.joins u v) (nx.edges g) = true)
    by (apply existsb_exists; now exists e).
  congruence.
Qed.

Lemma update_hops_cons f u v hs g :
  update_hops f ((u, v) :: hs) g = update_hops f hs (nx.update_num_flows f g u v).
Proof.
  unfold update_hops. cbn [fold_left fst snd]. now rewrite guarded_update.
Qed.

Lemma touches_cons u v r a b :
  touches a b (u :: v :: r) = same_link u v a b || touches a b (v :: r).
Proof. rewrite !touches_existsb. reflexivity. Qed.

Lemma touches_In x y p : touches x y p = true -> In x p /\ In y p.
Proof.
  unfold touches. intros H. apply orb_true_iff in H.
  destruct H as [H|H]; apply on_path_In in H; apply hops_In_nodes in H; tauto.
Qed.

Lemma update_hops_simple f p :
  NoDup p -> forall g, update_hops f (hops p) g = bump_path f g p.
Proof.
  induction p as [|u q IH]; intros Hnd g.
  - unfold bump_path. simpl. rewrite map_unchanged; [now destruct g | reflexivity].
  - destruct q as [|v r].
    + unfold bump_path. simpl. rewrite map_unchanged; [now destruct g | reflexivity].
    + inversion Hnd as [|? ? Hu Hq]; subst.
      rewrite hops_cons2, update_hops_cons, (IH Hq). unfold bump_path, nx.update_num_flows. cbn [nx.nodes nx.edges].
      f_equal. rewrite map_map. apply map_ext. intros [[a b] n].
      cbn [fst snd]. rewrite touches_cons, joins_same_link.
      destruct (same_link u v a b) eqn:Hs; cbn [fst snd orb]; [|reflexivity].
      destruct (touches a b (v :: r)) eqn:Ht; [|reflexivity].
      exfalso. apply Hu. apply touches_In in Ht. destruct Ht as [Ha Hb].
      unfold same_link in Hs. apply orb_true_iff in Hs.
      destruct Hs as [Hs|Hs]; apply andb_true_iff in Hs; destruct Hs as [H1 H2];
        apply String.eqb_eq in H1, H2; subst; assumption.
Qed.

Lemma incr_flows_simple g p :
  NoDup p -> incr_flows g p = bump_path (fun n => n + 1) g p.
Proof. intros H. now apply (update_hops_simple (fun n => n + 1)). Qed.

Lemma decr_flows_simple g p :
  NoDup p -> decr_flows g p = bump_path (fun n => Z.max 0 (n - 1)) g p.
Proof. intros H. now apply (update_hops_simple (fun n => Z.max 0 (n - 1))). Qed.

Lemma num_flows_bump f g p x y :
  nx.num_flows (bump_path f g p) x y =
  option_map (fun n => if touches x y p then f n else n) (nx.num_flows g x y).
Proof.
  unfold nx.num_flows, bump_path. cbn [nx.edges].
  induction (nx.edges g) as [|[[a b] n] l IH]; [reflexivity|].
  cbn [map find fst snd].
  assert (Hj : forall m, nx.joins x y (a, b, m) = same_link x y a b) by reflexivity.
  destruct (touches a b p) eqn:Ht; rewrite !Hj;
    (destruct (same_link x y a b) eqn:Hs; [|exact IH]);
    rewrite (same_link_touches _ _ _ _ p Hs), Ht; reflexivity.
Qed.

Lemma has_edge_bump f g p x y :
  nx.has_edge (bump_path f g p) x y = nx.has_edge g x y.
Proof.
  unfold nx.has_edge, bump_path. cbn [nx.edges].
  induction (nx.edges g) as [|[[a b] n] l IH]; [reflexivity|].
  cbn [map existsb fst snd]. rewrite IH.
  destruct (touches a b p); reflexivity.
Qed.

(** C8.  When the key [(src, dst)] is already in the table and a path [p]
    is found, [inject_flow] returns normally, the table keeps its keys and
    every other record, the record under [(src, dst)] is the new one with
    primary path [p], and the load of every edge is the old load plus one
    if [p] traverses the edge and the old load otherwise: nothing is taken
    off for the record that was overwritten. *)
Theorem inject_flow_overwrites w src dst prio crit old p :
  dict_get (src, dst) (flow_table w) = Some old ->
  result (compute_path src dst prio crit) w = Ok (Some p) ->
  let w' := run (inject_flow src dst prio crit) w in
  result (inject_flow src dst prio crit) w = Ok tt /\
  (exists bk, dict_get (src, dst) (flow_table w') =
              Some (mkFlow prio crit p bk PRIMARY)) /\
  map fst (flow_table w') = map fst (flow_table w) /\
  (forall k, k <> (src, dst) ->
             dict_get k (flow_table w') = dict_get k (flow_table w)) /\
  (forall x y, nx.has_edge (G w') x y = nx.has_edge (G w) x y) /\
  (forall x y, nx.num_flows (G w') x y =
               option_map (fun n => if touches x y p then n + 1 else n)
                          (nx.num_flows (G w) x y)).
Proof.
  intros Hold Hp. unfold run, result. rewrite inject_flow_unfold, Hp.
  assert (Hbk : exists bk, (if crit then result (compute_backup_path p) w
                            else Ok None) = Ok bk).
  { destruct crit; [|now exists None].
    destruct (compute_backup_path_after_compute_path _ _ _ _ _ _ Hp)
      as [bk [Hbk _]]. now exists bk. }
  destruct Hbk as [bk Hbk]. rewrite Hbk.
  assert (Hnd : NoDup p) by (apply compute_path_simple in Hp; apply Hp).
  cbn [fst snd G flow_table]. rewrite (incr_flows_simple _ _ Hnd).
  split; [reflexivity|]. split; [exists bk; apply dict_get_set_same|].
  split; [eapply dict_set_keys; eassumption|].
  split; [intros k Hk; now apply dict_get_set_other|].
  split; [intros x y; apply has_edge_bump | intros x y; apply num_flows_bump].
Qed.

Lemma inject_flow_overwrites_witness :
  let w' := run (inject_flow "A" "C" false false) main_world in
  result (inject_flow "A" "C" false false) main_world = Ok tt /\
  (exists bk, dict_get ("A", "C") (flow_table w') =
              Some (mkFlow false false ["A"; "C"] bk PRIMARY)) /\
  map fst (flow_table w') = map fst (flow_table main_world) /\
  (forall k, k <> ("A", "C") ->
             dict_get k (flow_table w') = dict_get k (flow_table main_world)) /\
  (forall x y, nx.has_edge (G w') x y = nx.has_edge (G main_world) x y) /\
  (forall x y, nx.num_flows (G w') x y =
               option_map (fun n => if touches x y ["A"; "C"] then n + 1 else n)
                          (nx.num_flows (G main_world) x y)).
Proof.
  apply (inject_flow_overwrites main_world "A" "C" false false
           (mkFlow false true ["A"; "C"] (Some ["A"; "E"; "C"]) PRIMARY)
           ["A"; "C"]).
  - reflexivity.
  - reflexivity.
Defined.

(** * Load conservation and re-installation *)

(** C1.  The state that [main] sets up conserves load.  Installing the flow
    A -> B once more picks the path A-E-B again and overwrites the record:
    the edge A-E then carries load 2 although the active path of a single
    record traverses it, and after that flow is removed the edge still
    carries load 1 with no record left on it. *)
Theorem reinstall_breaks_load_conservation :
  let w := run (inject_flow "A" "B" false false) main_world in
  let w' := run (remove_flow "A" "B") w in
  conserved main_world = true /\
  dict_get ("A", "B") (flow_table main_world) =
    Some (mkFlow false false ["A"; "E"; "B"] None PRIMARY) /\
  result (inject_flow "A" "B" false false) main_world = Ok tt /\
  dict_get ("A", "B") (flow_table w) =
    Some (mkFlow false false ["A"; "E"; "B"] None PRIMARY) /\
  nx.num_flows (G w) "A" "E" = Some 2 /\
  flows_on (flow_table w) "A" "E" = 1 /\
  conserved w = false /\
  nx.num_flows (G w') "A" "E" = Some 1 /\
  flows_on (flow_table w') "A" "E" = 0.
Proof.
  repeat split; reflexivity.
Qed.

(** * Link failure *)

(** C2.  After the link A-C has failed, the critical flow A -> C runs on its
    backup A-E-C.  When the link A-E of that backup fails next, the flow is
    found affected and is reported as rerouted to the same backup: its record
    stays in the table with the backup active, over a link that no longer
    exists, instead of being deleted. *)
Theorem second_failure_keeps_flow_on_failed_backup :
  let rerouted := mkFlow false true ["A"; "C"] (Some ["A"; "E"; "C"]) BACKUP in
  let w1 := run (fail_link "A" "C") main_world in
  let w2 := run (fail_link "A" "E") w1 in
  dict_get ("A", "C") (flow_table w1) = Some rerouted /\
  affected "A" "E" rerouted = Ok true /\
  result (fail_link "A" "E") w1 = Ok tt /\
  dict_get ("A", "C") (flow_table w2) = Some rerouted /\
  nx.has_edge (G w2) "A" "E" = false /\
  stdout w2 =
    stdout w1 ++ [FailingLink "A" "E";
                  FlowAffected "A" "B"; FlowDropped "A" "B";
                  FlowAffected "A" "C"; Rerouted "A" "C" ["A"; "E"; "C"]].
Proof.
  repeat split; reflexivity.
Qed.

Lemma nodupb_NoDup p : nodupb p = true -> NoDup p.
Proof.
  induction p as [|a q IH]; simpl; intros H; [constructor|].
  apply andb_true_iff in H. destruct H as [Ha Hq].
  constructor; [|now apply IH].
  intros Hin. apply negb_true_iff in Ha.
  assert (existsb (String.eqb a) q = true).
  { apply existsb_exists. exists a. split; [assumption | apply String.eqb_refl]. }
  congruence.
Qed.

Lemma flow_okb_active f :
  flow_okb f = true -> exists p, active_path f = Some p /\ NoDup p.
Proof.
  unfold flow_okb, active_path. intros H. apply andb_true_iff in H.
  destruct H as [Hp Hb]. destruct (active f).
  - exists (primary f). split; [reflexivity | now apply nodupb_NoDup].
  - destruct (backup f) as [b|]; [|discriminate].
    exists b. split; [reflexivity | now apply nodupb_NoDup].
Qed.

Lemma flow_okb_backup f b :
  flow_okb f = true -> backup f = Some b -> NoDup b.
Proof.
  unfold flow_okb. intros H Hb. apply andb_true_iff in H.
  destruct H as [_ H]. rewrite Hb in H. now apply nodupb_NoDup.
Qed.

Lemma scan_condition u v p :
  (truthy p && on_path u v p) || on_path v u p = touches u v p.
Proof.
  unfold touches. destruct p; reflexivity.
Qed.

Lemma affected_flows_filter u v t :
  forallb (fun kf => flow_okb (snd kf)) t = true ->
  affected_flows u v t = Ok (filter (fun kf => traverses u v (snd kf)) t).
Proof.
  induction t as [|[k info] t IH]; simpl; intros H; [reflexivity|].
  apply andb_true_iff in H. destruct H as [Hi Ht].
  rewrite (IH Ht). unfold affected, traverses.
  destruct (flow_okb_active _ Hi) as [p [Hp _]]. rewrite Hp.
  now rewrite scan_condition.
Qed.

Lemma dict_del_absent k t :
  existsb (fun kf => key_eqb k (fst kf)) t = false -> dict_del k t = t.
Proof.
  intros H. unfold dict_del. apply filter_all_true.
  rewrite <- H. apply existsb_pointwise. intros x. apply negb_involutive.
Qed.

Lemma dict_set_active_absent k s t :
  existsb (fun kf => key_eqb k (fst kf)) t = false -> dict_set_active k s t = t.
Proof.
  intros H. unfold dict_set_active. apply map_unchanged.
  intros x Hx. destruct (key_eqb k (fst x)) eqn:Hk; [|reflexivity].
  assert (existsb (fun kf => key_eqb k (fst kf)) t = true)
    by (apply existsb_exists; now exists x).
  congruence.
Qed.

Lemma handle_affected_step (k : key) info w p :
  active_path info = Some p -> NoDup p ->
  (forall b, backup info = Some b -> NoDup b) ->
  handle_affected (k, info) w =
  (Ok tt,
   let g1 := bump_path (fun n => Z.max 0 (n - 1)) (G w) p in
   let dropped :=
       mkWorld g1 (dict_del k (flow_table w))
               (stdout w ++ [FlowAffected (fst k) (snd k); FlowDropped (fst k) (snd k)]) in
   match backup info with
   | Some b =>
     if critical info && truthy b
     then mkWorld (bump_path (fun n => n + 1) g1 b)
                  (dict_set_active k BACKUP (flow_table w))
                  (stdout w ++ [FlowAffected (fst k) (snd k); Rerouted (fst k) (snd k) b])
     else dropped
   | None => dropped
   end).
Proof.
  intros Hp Hnd Hb. destruct k as [src dst].
  unfold handle_affected, bind, print, get_G, put_G,
    get_flow_table, put_flow_table, raise. cbn [G flow_table stdout fst snd].
  rewrite Hp. cbn [G flow_table stdout]. rewrite (decr_flows_simple _ _ Hnd).
  unfold has_backup. destruct (backup info) as [b|] eqn:Hbk.
  - destruct (critical info && truthy b) eqn:Hc; cbn [G flow_table stdout].
    + rewrite (incr_flows_simple _ _ (Hb b eq_refl)).
      now rewrite <- app_assoc.
    + now rewrite <- app_assoc.
  - rewrite andb_false_r. cbn [G flow_table stdout]. now rewrite <- app_assoc.
Qed.

Lemma key_eqb_sym a b : key_eqb a b = key_eqb b a.
Proof.
  unfold key_eqb. now rewrite (String.eqb_sym (fst a)), (String.eqb_sym (snd a)).
Qed.

Lemma keys_fresh_tail pre kf t : keys_fresh pre (kf :: t) -> keys_fresh pre t.
Proof. intros H x Hx. apply H. now right. Qed.

Lemma keys_fresh_snoc pre k info info' t :
  keys_fresh pre ((k, info) :: t) ->
  existsb (fun x => key_eqb k (fst x)) t = false ->
  keys_fresh (pre ++ [(k, info')]) t.
Proof.
  intros H Hk x Hx. rewrite existsb_app. rewrite (H x) by now right.
  cbn [existsb fst orb]. rewrite orb_false_r.
  destruct (key_eqb (fst x) k) eqn:Hx'; [|reflexivity].
  assert (existsb (fun y => key_eqb k (fst y)) t = true).
  { apply existsb_exists. exists x. split; [assumption|]. now rewrite key_eqb_sym. }
  congruence.
Qed.

Lemma for_each_handle_affected u v :
  forall t pre g out0,
    unique_keys t = true ->
    keys_fresh pre t ->
    forallb (fun kf => flow_okb (snd kf)) t = true ->
    for_each (filter (fun kf => traverses u v (snd kf)) t) handle_affected
             (mkWorld g (pre ++ t) out0) =
    let '(g', t', out) := failLink_spec u v t g in
    (Ok tt, mkWorld g' (pre ++ t') (out0 ++ out)).
Proof.
  induction t as [|[k info] t IH]; intros pre g out0 Huniq Hfresh Hok.
  - cbn. now rewrite !app_nil_r.
  - cbn [unique_keys] in Huniq. apply andb_true_iff in Huniq.
    destruct Huniq as [Hk Huniq]. apply negb_true_iff in Hk.
    cbn [forallb snd] in Hok. apply andb_true_iff in Hok.
    destruct Hok as [Hinfo Hok].
    destruct (flow_okb_active _ Hinfo) as [p [Hp Hnd]].
    assert (Hpre : existsb (fun x => key_eqb k (fst x)) pre = false).
    { apply (Hfresh (k, info)). now left. }
    assert (Hdel : dict_del k (pre ++ (k, info) :: t) = pre ++ t).
    { unfold dict_del. rewrite filter_app. cbn [filter fst].
      rewrite key_eqb_refl. cbn [negb].
      fold (dict_del k pre). fold (dict_del k t).
      now rewrite !dict_del_absent. }
    assert (Hset : dict_set_active k BACKUP (pre ++ (k, info) :: t) =
                   (pre ++ [(k, set_active BACKUP info)]) ++ t).
    { unfold dict_set_active. rewrite map_app. cbn [map fst snd].
      rewrite key_eqb_refl.
      fold (dict_set_active k BACKUP pre). fold (dict_set_active k BACKUP t).
      rewrite !dict_set_active_absent by assumption.
      now rewrite <- app_assoc. }
    cbn [filter failLink_spec snd]. unfold traverses at 1. rewrite Hp.
    destruct (touches u v p) eqn:Ht.
    + cbn [for_each]. unfold bind at 1.
      rewrite (handle_affected_step _ _ _ p Hp Hnd
                 (fun b Hb => flow_okb_backup _ _ Hinfo Hb)).
      cbn [G flow_table stdout].
      destruct (backup info) as [b|] eqn:Hbk.
      * destruct (critical info && truthy b) eqn:Hc.
        -- rewrite Hset. rewrite IH; try assumption.
           ++ destruct (failLink_spec u v t _) as [[g' t'] out].
              now rewrite <- !app_assoc.
           ++ eapply keys_fresh_snoc; eassumption.
        -- rewrite Hdel. rewrite IH; try assumption.
           ++ destruct (failLink_spec u v t _) as [[g' t'] out].
              now rewrite <- !app_assoc.
           ++ eapply keys_fresh_tail; eassumption.
      * rewrite Hdel. rewrite IH; try assumption.
        -- destruct (failLink_spec u v t _) as [[g' t'] out].
           now rewrite <- !app_assoc.
        -- eapply keys_fresh_tail; eassumption.
    + replace (pre ++ (k, info) :: t)
        with ((pre ++ [(k, info)]) ++ t) by now rewrite <- app_assoc.
      rewrite IH; try assumption.
      * destruct (failLink_spec u v t g) as [[g' t'] out].
        now rewrite <- !app_assoc.
      * eapply keys_fresh_snoc; eassumption.
Qed.

Lemma fail_link_on_link w u v :
  nx.has_edge (G w) u v = true ->
  unique_keys (flow_table w) = true ->
  forallb (fun kf => flow_okb (snd kf)) (flow_table w) = true ->
  fail_link u v w =
  let '(g', t', out) :=
      failLink_spec u v (flow_table w) (nx.remove_edge (G w) u v) in
  (Ok tt, mkWorld g' t' (stdout w ++ FailingLink u v :: out)).
Proof.
  intros He Huniq Hok.
  unfold fail_link, bind, get_G, print, put_G, get_flow_table, lift.
  cbn [G flow_table stdout]. rewrite He. cbn [negb G flow_table stdout].
  rewrite (affected_flows_filter _ _ _ Hok).
  rewrite (for_each_handle_affected u v (flow_table w) [] _ _ Huniq);
    [|intros kf _; reflexivity | assumption].
  destruct (failLink_spec u v (flow_table w) _) as [[g' t'] out].
  cbn [app]. now rewrite <- app_assoc.
Qed.

(** C7.  On a link of the topology, with a table whose keys are unique and
    whose records have duplicate-free paths, [fail_link] returns normally
    and ends in the state, and with the output, that the one-pass reading of
    the failure handler gives: the records whose active path has [(u, v)] or
    [(v, u)] as a hop are the affected ones; each has 1 taken off (floor 0)
    every remaining edge of its active path and is then switched to its
    backup with 1 added on every edge of the backup and a reroute reported
    (critical, backup present), or deleted with an eviction reported. *)
Theorem fail_link_refines_spec w u v :
  nx.has_edge (G w) u v = true ->
  table_ok (flow_table w) = true ->
  fail_link u v w =
  let '(g', t', out) :=
      failLink_spec u v (flow_table w) (nx.remove_edge (G w) u v) in
  (Ok tt, mkWorld g' t' (stdout w ++ FailingLink u v :: out)).
Proof.
  intros He Hok. unfold table_ok in Hok. apply andb_true_iff in Hok.
  destruct Hok as [Huniq Hok].
  now apply fail_link_on_link.
Qed.

Lemma fail_link_refines_spec_witness :
  fail_link "A" "C" main_world =
  let '(g', t', out) :=
      failLink_spec "A" "C" (flow_table main_world)
                    (nx.remove_edge (G main_world) "A" "C") in
  (Ok tt, mkWorld g' t' (stdout main_world ++ FailingLink "A" "C" :: out)).
Proof.
  apply (fail_link_refines_spec main_world "A" "C").
  - reflexivity.
  - reflexivity.
Defined.

(** * Invariants of the controller state *)

Lemma flows_on_cons k f t x y :
  flows_on ((k, f) :: t) x y = one_if (traverses x y f) + flows_on t x y.
Proof.
  unfold flows_on. cbn [filter snd]. destruct (traverses x y f); cbn [one_if length].
  - lia.
  - reflexivity.
Qed.

Lemma flows_on_nonneg t x y : 0 <= flows_on t x y.
Proof. unfold flows_on. lia. Qed.

Lemma flows_on_app t1 t2 x y :
  flows_on (t1 ++ t2) x y = flows_on t1 x y + flows_on t2 x y.
Proof.
  unfold flows_on. rewrite filter_app, length_app. lia.
Qed.

Lemma conserved_iff w :
  conserved w = true <-> load_conserved (G w) (flow_table w).
Proof.
  unfold conserved, load_conserved. rewrite forallb_forall, Forall_forall.
  split; intros H e He; specialize (H e He); now apply Z.eqb_eq.
Qed.

Lemma NoDup_nodupb p : NoDup p -> nodupb p = true.
Proof.
  induction 1 as [|a q Ha _ IH]; [reflexivity|].
  cbn [nodupb]. rewrite IH, andb_true_r. apply negb_true_iff.
  apply not_true_is_false. intros H. apply existsb_exists in H.
  destruct H as [x [Hx Heq]]. apply String.eqb_eq in Heq. now subst.
Qed.

Lemma dict_get_absent k t :
  dict_get k t = None <-> existsb (fun kf => key_eqb k (fst kf)) t = false.
Proof.
  induction t as [|[k' f] t IH]; cbn [dict_get existsb fst]; [tauto|].
  destruct (key_eqb k k'); cbn [orb]; [split; discriminate | exact IH].
Qed.

Lemma dict_set_fresh k f t :
  dict_get k t = None -> dict_set k f t = t ++ [(k, f)].
Proof.
  induction t as [|[k' f'] t IH]; cbn [dict_get dict_set app]; [reflexivity|].
  destruct (key_eqb k k'); [discriminate|]. intros H. now rewrite IH.
Qed.

Lemma existsb_key_dict_set k' k f t :
  key_eqb k' k = false ->
  existsb (fun kf => key_eqb k' (fst kf)) (dict_set k f t) =
  existsb (fun kf => key_eqb k' (fst kf)) t.
Proof.
  intros Hne. induction t as [|[k0 f0] t IH]; cbn [dict_set existsb fst].
  - now rewrite Hne.
  - destruct (key_eqb k k0); cbn [existsb fst]; [reflexivity | now rewrite IH].
Qed.

Lemma unique_keys_dict_set k f t :
  unique_keys t = true -> unique_keys (dict_set k f t) = true.
Proof.
  induction t as [|[k0 f0] t IH]; cbn [dict_set unique_keys]; [reflexivity|].
  intros H. apply andb_true_iff in H. destruct H as [Hk Ht].
  destruct (key_eqb k k0) eqn:Hkk; cbn [unique_keys].
  - now rewrite Hk, Ht.
  - rewrite existsb_key_dict_set, Hk, (IH Ht); [reflexivity|].
    now rewrite key_eqb_sym.
Qed.

Lemma flows_ok_dict_set k f t :
  flow_okb f = true ->
  forallb (fun kf => flow_okb (snd kf)) t = true ->
  forallb (fun kf => flow_okb (snd kf)) (dict_set k f t) = true.
Proof.
  intros Hf. induction t as [|[k0 f0] t IH]; cbn [dict_set forallb snd].
  - now rewrite Hf.
  - intros H. apply andb_true_iff in H. destruct H as [H0 Ht].
    destruct (key_eqb k k0); cbn [forallb snd].
    + now rewrite Hf, Ht.
    + now rewrite H0, (IH Ht).
Qed.

Lemma existsb_filter_le {A} (P Q : A -> bool) l :
  existsb P l = false -> existsb P (filter Q l) = false.
Proof.
  induction l as [|a l IH]; cbn [existsb filter]; [reflexivity|].
  intros H. apply orb_false_iff in H. destruct H as [Ha Hl].
  destruct (Q a); cbn [existsb]; [now rewrite Ha, (IH Hl) | now apply IH].
Qed.

Lemma table_ok_filter (Q : key * flow -> bool) t :
  table_ok t = true -> table_ok (filter Q t) = true.
Proof.
  unfold table_ok. intros H. apply andb_true_iff in H. destruct H as [Hu Hf].
  apply andb_true_iff. split.
  - clear Hf. induction t as [|[k f] t IH]; [reflexivity|].
    cbn [unique_keys] in Hu. apply andb_true_iff in Hu. destruct Hu as [Hk Ht].
    cbn [filter]. destruct (Q (k, f)); [|now apply IH].
    cbn [unique_keys]. rewrite (IH Ht), andb_true_r.
    apply negb_true_iff. apply existsb_filter_le. now apply negb_true_iff.
  - rewrite forallb_forall in *. intros x Hx. apply filter_In in Hx.
    now apply Hf.
Qed.

Lemma dict_get_flow_ok k f t :
  forallb (fun kf => flow_okb (snd kf)) t = true ->
  dict_get k t = Some f -> flow_okb f = true.
Proof.
  induction t as [|[k0 f0] t IH]; cbn [forallb dict_get snd]; [discriminate|].
  intros H. apply andb_true_iff in H. destruct H as [H0 Ht].
  destruct (key_eqb k k0); [intros [= <-]; assumption | now apply IH].
Qed.

Lemma flows_on_dict_del k f t x y :
  unique_keys t = true -> dict_get k t = Some f ->
  flows_on t x y = one_if (traverses x y f) + flows_on (dict_del k t) x y.
Proof.
  induction t as [|[k0 f0] t IH]; cbn [unique_keys dict_get]; [discriminate|].
  intros Hu. apply andb_true_iff in Hu. destruct Hu as [Hk Ht].
  unfold dict_del. cbn [filter fst]. destruct (key_eqb k k0) eqn:Hkk; cbn [negb].
  - intros [= <-]. apply key_eqb_eq in Hkk. subst k0.
    fold (dict_del k t). rewrite dict_del_absent by now apply negb_true_iff.
    apply flows_on_cons.
  - intros Hget. fold (dict_del k t). rewrite !flows_on_cons, (IH Ht Hget). lia.
Qed.

Lemma load_conserved_bump_incr g t p :
  load_conserved g t ->
  load_offset (fun x y => one_if (touches x y p)) (bump_path (fun n => n + 1) g p) t.
Proof.
  unfold load_conserved, load_offset, bump_path. cbn [nx.edges].
  rewrite !Forall_forall. intros H e He. apply in_map_iff in He.
  destruct He as [[[a b] n] [<- Hin]]. specialize (H _ Hin). cbn [fst snd] in *.
  destruct (touches a b p) eqn:Ht; cbn [fst snd]; rewrite ?Ht; cbn [one_if]; lia.
Qed.

Lemma load_offset_bump_decr g t p :
  load_offset (fun x y => one_if (touches x y p)) g t ->
  load_conserved (bump_path (fun n => Z.max 0 (n - 1)) g p) t.
Proof.
  unfold load_conserved, load_offset, bump_path. cbn [nx.edges].
  rewrite !Forall_forall. intros H e He. apply in_map_iff in He.
  destruct He as [[[a b] n] [<- Hin]]. specialize (H _ Hin). cbn [fst snd] in *.
  pose proof (flows_on_nonneg t a b).
  destruct (touches a b p) eqn:Ht; cbn [fst snd one_if] in *; lia.
Qed.

Lemma compute_path_keeps_table_ok w src dst prio crit p bk :
  result (compute_path src dst prio crit) w = Ok (Some p) ->
  (if crit then result (compute_backup_path p) w else Ok None) = Ok bk ->
  flow_okb (mkFlow prio crit p bk PRIMARY) = true.
Proof.
  intros Hp Hbk. unfold flow_okb. cbn [primary backup active].
  assert (Hnd : NoDup p) by (apply compute_path_simple in Hp; apply Hp).
  rewrite (NoDup_nodupb _ Hnd). cbn [andb].
  destruct bk as [b|]; [|reflexivity]. destruct crit; [|discriminate].
  destruct (compute_backup_path_after_compute_path _ _ _ _ _ _ Hp)
    as [bk' [Hbk' [_ Hsome]]].
  rewrite Hbk in Hbk'. injection Hbk' as <-.
  destruct (Hsome b eq_refl) as [Hb _]. apply NoDup_nodupb. apply Hb.
Qed.

(** [inject_flow] keeps tables well formed, and keeps the load conserved
    when the key is new. *)
Lemma inject_flow_invariant w src dst prio crit :
  table_ok (flow_table w) = true ->
  let w' := run (inject_flow src dst prio crit) w in
  table_ok (flow_table w') = true /\
  (dict_get (src, dst) (flow_table w) = None ->
   load_conserved (G w) (flow_table w) ->
   load_conserved (G w') (flow_table w')).
Proof.
  intros Hok. unfold run. rewrite inject_flow_unfold.
  destruct (result (compute_path src dst prio crit) w) as [[p|]|e] eqn:Hp;
    cbn [snd G flow_table]; try (split; [assumption | auto]).
  destruct (if crit then result (compute_backup_path p) w else Ok None)
    as [bk|e] eqn:Hbk; cbn [snd G flow_table]; try (split; [assumption | auto]).
  pose proof (compute_path_keeps_table_ok _ _ _ _ _ _ _ Hp Hbk) as Hflow.
  unfold table_ok in *. apply andb_true_iff in Hok. destruct Hok as [Hu Hf].
  split.
  - now rewrite unique_keys_dict_set, flows_ok_dict_set.
  - intros Hfresh Hcons. rewrite (dict_set_fresh _ _ _ Hfresh).
    assert (Hnd : NoDup p) by (apply compute_path_simple in Hp; apply Hp).
    rewrite (incr_flows_simple _ _ Hnd).
    pose proof (load_conserved_bump_incr _ _ p Hcons) as H.
    unfold load_offset, load_conserved in *. rewrite Forall_forall in *.
    intros e He. rewrite (H e He), flows_on_app.
    unfold flows_on at 3. cbn [filter snd]. unfold traverses, active_path.
    cbn [active primary]. destruct (touches _ _ p); cbn [length one_if]; lia.
Qed.

(** [remove_flow] keeps tables well formed and the load conserved. *)
Lemma remove_flow_invariant w src dst :
  table_ok (flow_table w) = true ->
  let w' := run (remove_flow src dst) w in
  table_ok (flow_table w') = true /\
  (load_conserved (G w) (flow_table w) -> load_conserved (G w') (flow_table w')).
Proof.
  intros Hok. unfold run, remove_flow, bind, get_flow_table, get_G, put_G,
    put_flow_table, print, raise. cbn [fst snd G flow_table stdout].
  destruct (dict_get (src, dst) (flow_table w)) as [f|] eqn:Hget;
    cbn [snd G flow_table]; [|split; [assumption | auto]].
  pose proof Hok as Hok'. unfold table_ok in Hok'.
  apply andb_true_iff in Hok'. destruct Hok' as [Hu Hf].
  pose proof (dict_get_flow_ok _ _ _ Hf Hget) as Hflow.
  destruct (flow_okb_active _ Hflow) as [p [Hp Hnd]]. rewrite Hp.
  cbn [snd G flow_table]. split.
  - now apply table_ok_filter.
  - intros Hcons. rewrite (decr_flows_simple _ _ Hnd).
    apply load_offset_bump_decr.
    unfold load_offset, load_conserved in *. rewrite Forall_forall in *.
    intros e He. rewrite (Hcons e He).
    rewrite (flows_on_dict_del _ _ _ _ _ Hu Hget). unfold traverses. now rewrite Hp.
Qed.

Lemma flow_okb_set_active f b :
  flow_okb f = true -> backup f = Some b -> flow_okb (set_active BACKUP f) = true.
Proof.
  unfold flow_okb, set_active. cbn [primary backup active].
  intros H Hb. rewrite Hb in *. exact H.
Qed.

Lemma failLink_spec_table u v :
  forall t g,
    unique_keys t = true ->
    forallb (fun kf => flow_okb (snd kf)) t = true ->
    let t' := snd (fst (failLink_spec u v t g)) in
    unique_keys t' = true /\
    forallb (fun kf => flow_okb (snd kf)) t' = true /\
    forall k, existsb (fun kf => key_eqb k (fst kf)) t = false ->
              existsb (fun kf => key_eqb k (fst kf)) t' = false.
Proof.
  induction t as [|[k info] t IH]; intros g Hu Hf.
  - cbn. auto.
  - cbn [unique_keys] in Hu. apply andb_true_iff in Hu. destruct Hu as [Hk Hu].
    cbn [forallb snd] in Hf. apply andb_true_iff in Hf. destruct Hf as [Hinfo Hf].
    assert (Hkeep : forall g0 info0,
               flow_okb info0 = true ->
               let t' := snd (fst (failLink_spec u v t g0)) in
               unique_keys ((k, info0) :: t') = true /\
               forallb (fun kf => flow_okb (snd kf)) ((k, info0) :: t') = true /\
               forall k0, existsb (fun kf => key_eqb k0 (fst kf)) ((k, info) :: t) = false ->
                          existsb (fun kf => key_eqb k0 (fst kf)) ((k, info0) :: t') = false).
    { intros g0 info0 Hinfo0. destruct (IH g0 Hu Hf) as [H1 [H2 H3]].
      cbn [unique_keys forallb existsb fst snd]. split; [|split].
      - rewrite H1, andb_true_r. apply negb_true_iff. apply H3.
        now apply negb_true_iff.
      - now rewrite Hinfo0, H2.
      - intros k0 H0. apply orb_false_iff in H0. destruct H0 as [Ha Hb].
        now rewrite Ha, (H3 k0 Hb). }
    assert (Hdrop : forall g0,
               let t' := snd (fst (failLink_spec u v t g0)) in
               unique_keys t' = true /\
               forallb (fun kf => flow_okb (snd kf)) t' = true /\
               forall k0, existsb (fun kf => key_eqb k0 (fst kf)) ((k, info) :: t) = false ->
                          existsb (fun kf => key_eqb k0 (fst kf)) t' = false).
    { intros g0. destruct (IH g0 Hu Hf) as [H1 [H2 H3]].
      split; [assumption|]. split; [assumption|].
      intros k0 H0. cbn [existsb] in H0. apply orb_false_iff in H0.
      now apply H3. }
    cbn [failLink_spec].
    destruct (active_path info) as [p|]; [|].
    + destruct (touches u v p).
      * destruct (backup info) as [b|] eqn:Hb.
        -- destruct (critical info && truthy b).
           ++ specialize (Hkeep (bump_path (fun n => n + 1)
                                    (bump_path (fun n => Z.max 0 (n - 1)) g p) b)
                                (set_active BACKUP info)
                                (flow_okb_set_active _ _ Hinfo Hb)).
              destruct (failLink_spec u v t _) as [[g' t'] out]. exact Hkeep.
           ++ specialize (Hdrop (bump_path (fun n => Z.max 0 (n - 1)) g p)).
              destruct (failLink_spec u v t _) as [[g' t'] out]. exact Hdrop.
        -- specialize (Hdrop (bump_path (fun n => Z.max 0 (n - 1)) g p)).
           destruct (failLink_spec u v t _) as [[g' t'] out]. exact Hdrop.
      * specialize (Hkeep g info Hinfo).
        destruct (failLink_spec u v t _) as [[g' t'] out]. exact Hkeep.
    + specialize (Hkeep g info Hinfo).
      destruct (failLink_spec u v t _) as [[g' t'] out]. exact Hkeep.
Qed.

Lemma load_offset_cons base g k f t :
  load_offset base g ((k, f) :: t) <->
  load_offset (fun x y => base x y + one_if (traverses x y f)) g t.
Proof.
  unfold load_offset. rewrite !Forall_forall.
  split; intros H e He; specialize (H e He); rewrite flows_on_cons in *; lia.
Qed.

Lemma load_offset_ext base base' g t :
  (forall x y, base x y = base' x y) ->
  load_offset base g t -> load_offset base' g t.
Proof.
  unfold load_offset. rewrite !Forall_forall.
  intros Heq H e He. rewrite <- Heq. now apply H.
Qed.

Lemma load_offset_decr base g t p :
  (forall x y, 0 <= base x y) ->
  load_offset (fun x y => base x y + one_if (touches x y p)) g t ->
  load_offset base (bump_path (fun n => Z.max 0 (n - 1)) g p) t.
Proof.
  unfold load_offset, bump_path. cbn [nx.edges].
  rewrite !Forall_forall. intros Hbase H e He. apply in_map_iff in He.
  destruct He as [[[a b] n] [<- Hin]]. specialize (H _ Hin). cbn [fst snd] in *.
  pose proof (flows_on_nonneg t a b). pose proof (Hbase a b).
  destruct (touches a b p) eqn:Ht; cbn [fst snd one_if] in *; lia.
Qed.

Lemma load_offset_incr base g t p :
  load_offset base g t ->
  load_offset (fun x y => base x y + one_if (touches x y p))
              (bump_path (fun n => n + 1) g p) t.
Proof.
  unfold load_offset, bump_path. cbn [nx.edges].
  rewrite !Forall_forall. intros H e He. apply in_map_iff in He.
  destruct He as [[[a b] n] [<- Hin]]. specialize (H _ Hin). cbn [fst snd] in *.
  destruct (touches a b p) eqn:Ht; cbn [fst snd]; rewrite ?Ht; cbn [one_if]; lia.
Qed.

Lemma failLink_spec_load u v :
  forall t g base,
    (forall x y, 0 <= base x y) ->
    forallb (fun kf => flow_okb (snd kf)) t = true ->
    load_offset base g t ->
    load_offset base (fst (fst (failLink_spec u v t g)))
                (snd (fst (failLink_spec u v t g))).
Proof.
  induction t as [|[k info] t IH]; intros g base Hbase Hf Hload.
  - exact Hload.
  - cbn [forallb snd] in Hf. apply andb_true_iff in Hf. destruct Hf as [Hinfo Hf].
    destruct (flow_okb_active _ Hinfo) as [p [Hp _]].
    apply load_offset_cons in Hload.
    assert (Htr : forall x y, traverses x y info = touches x y p).
    { intros x y. unfold traverses. now rewrite Hp. }
    assert (Hpos : forall b0 x y, 0 <= base x y + one_if b0).
    { intros b0 x y. specialize (Hbase x y). destruct b0; cbn [one_if]; lia. }
    assert (Hdropped : load_offset base (bump_path (fun n => Z.max 0 (n - 1)) g p) t).
    { apply load_offset_decr; [assumption|].
      eapply load_offset_ext; [|exact Hload]. intros x y. cbn beta. now rewrite Htr. }
    cbn [failLink_spec]. rewrite Hp.
    destruct (touches u v p).
    + destruct (backup info) as [b|] eqn:Hb.
      * destruct (critical info && truthy b).
        -- pose proof (IH _ _ (fun x y => Hpos (touches x y b) x y) Hf
                          (load_offset_incr _ _ _ b Hdropped)) as H.
           destruct (failLink_spec u v t _) as [[g' t'] out]. cbn [fst snd] in *.
           apply load_offset_cons. eapply load_offset_ext; [|exact H].
           intros x y. cbn beta. unfold traverses, set_active, active_path.
           cbn [active backup]. now rewrite Hb.
        -- pose proof (IH _ _ Hbase Hf Hdropped) as H.
           destruct (failLink_spec u v t _) as [[g' t'] out]. exact H.
      * pose proof (IH _ _ Hbase Hf Hdropped) as H.
        destruct (failLink_spec u v t _) as [[g' t'] out]. exact H.
    + pose proof (IH _ _ (fun x y => Hpos (traverses x y info) x y) Hf Hload) as H.
      destruct (failLink_spec u v t _) as [[g' t'] out]. cbn [fst snd] in *.
      now apply load_offset_cons.
Qed.

Lemma load_conserved_offset g t :
  load_conserved g t <-> load_offset (fun _ _ => 0) g t.
Proof.
  unfold load_conserved, load_offset. rewrite !Forall_forall.
  split; intros H e He; specialize (H e He); lia.
Qed.

(** [fail_link] keeps tables well formed and the load conserved. *)
Lemma fail_link_invariant w u v :
  table_ok (flow_table w) = true ->
  let w' := run (fail_link u v) w in
  table_ok (flow_table w') = true /\
  (load_conserved (G w) (flow_table w) -> load_conserved (G w') (flow_table w')).
Proof.
  intros Hok. destruct (nx.has_edge (G w) u v) eqn:He.
  - unfold table_ok in Hok. apply andb_true_iff in Hok. destruct Hok as [Hu Hf].
    unfold run. rewrite (fail_link_on_link _ _ _ He Hu Hf).
    pose proof (failLink_spec_table u v _ (nx.remove_edge (G w) u v) Hu Hf) as Ht.
    pose proof (failLink_spec_load u v (flow_table w) (nx.remove_edge (G w) u v)
                                   (fun _ _ => 0) (fun _ _ => Z.le_refl 0) Hf) as Hl.
    destruct (failLink_spec u v (flow_table w) _) as [[g' t'] out].
    cbn [fst snd G flow_table] in *. destruct Ht as [H1 [H2 _]]. split.
    + unfold table_ok. now rewrite H1, H2.
    + intros Hcons. apply load_conserved_offset. apply Hl.
      apply load_conserved_offset. unfold load_conserved, nx.remove_edge in *.
      cbn [nx.edges]. apply Forall_forall. intros e Hin.
      apply filter_In in Hin. destruct Hin as [Hin _].
      rewrite Forall_forall in Hcons. now apply Hcons.
  - unfold run, fail_link, bind, get_G. cbn [fst snd G]. rewrite He.
    cbn [negb print snd G flow_table]. auto.
Qed.

(** X20.  Well-formed tables stay well formed under every sequence of
    operations: every table that the controller builds has unique keys and
    records with duplicate-free paths, the backup being active only where
    there is one. *)
Lemma table_ok_run_ops os :
  forall w, table_ok (flow_table w) = true ->
            table_ok (flow_table (run_ops os w)) = true.
Proof.
  induction os as [|o os IH]; intros w Hok; [exact Hok|].
  cbn [run_ops]. apply IH. destruct o; cbn [exec].
  - apply inject_flow_invariant; assumption.
  - apply remove_flow_invariant; assumption.
  - apply fail_link_invariant; assumption.
Qed.

(** X21.  Load conservation, as far as it holds: from a state that conserves load,
    every sequence of installs, removals and link failures in which no
    install names a key already in the table ends in a state where every
    edge carries exactly the flows whose active path traverses it. *)
Lemma load_conserved_without_reinstall os :
  forall w,
    table_ok (flow_table w) = true ->
    load_conserved (G w) (flow_table w) ->
    fresh_installs os w ->
    load_conserved (G (run_ops os w)) (flow_table (run_ops os w)).
Proof.
  induction os as [|o os IH]; intros w Hok Hcons Hfresh; [exact Hcons|].
  cbn [run_ops]. destruct Hfresh as [Hnew Hrest].
  apply IH; [| |exact Hrest]; destruct o; cbn [exec].
  - apply inject_flow_invariant; assumption.
  - apply remove_flow_invariant; assumption.
  - apply fail_link_invariant; assumption.
  - apply inject_flow_invariant; assumption.
  - apply remove_flow_invariant; assumption.
  - apply fail_link_invariant; assumption.
Qed.

(** * Further properties of the flow operations *)

(** ** What the operations do to the graph *)

Lemma for_each_graph {A} (Q : nx.Graph -> Prop) (body : A -> M unit) l :
  (forall a w, Q (G w) -> Q (G (run (body a) w))) ->
  forall w, Q (G w) -> Q (G (run (for_each l body) w)).
Proof.
  intros Hbody. induction l as [|a l IH]; intros w Hw; [exact Hw|].
  unfold run. cbn [for_each]. unfold bind.
  specialize (Hbody a w Hw). unfold run in Hbody.
  destruct (body a w) as [[[]|e] w']; cbn [snd] in *.
  - now apply IH.
  - exact Hbody.
Qed.

Lemma update_hops_graph (Q : nx.Graph -> Prop) f :
  (forall g u v, Q g -> Q (nx.update_num_flows f g u v)) ->
  forall hs g, Q g -> Q (update_hops f hs g).
Proof.
  intros Hstep. induction hs as [|[u v] hs IH]; intros g Hg; [exact Hg|].
  rewrite update_hops_cons. apply IH. now apply Hstep.
Qed.

Lemma handle_affected_graph Q kf w :
  load_blind Q -> Q (G w) -> Q (G (run (handle_affected kf) w)).
Proof.
  intros [Hinc Hdec] Hw. destruct kf as [[src dst] info].
  unfold run, handle_affected, bind, print, get_G, put_G, get_flow_table,
    put_flow_table, raise. cbn [fst snd G flow_table stdout].
  destruct (active_path info) as [old_path|]; cbn [snd G]; [|exact Hw].
  destruct (critical info && has_backup info); cbn [snd G].
  - destruct (backup info) as [new_path|]; cbn [snd G].
    + apply Hinc. now apply Hdec.
    + now apply Hdec.
  - now apply Hdec.
Qed.

Lemma fail_link_graph Q w u v :
  load_blind Q ->
  Q (if nx.has_edge (G w) u v then nx.remove_edge (G w) u v else G w) ->
  Q (G (run (fail_link u v) w)).
Proof.
  intros Hblind Hw. unfold run, fail_link, bind, get_G, print, put_G,
    get_flow_table, lift. cbn [fst snd G flow_table stdout].
  destruct (nx.has_edge (G w) u v); cbn [negb snd G flow_table stdout]; [|exact Hw].
  destruct (affected_flows u v (flow_table w)) as [l|e]; cbn [snd G]; [|exact Hw].
  apply (for_each_graph Q handle_affected l).
  - intros a w0. now apply handle_affected_graph.
  - exact Hw.
Qed.

Lemma inject_flow_graph Q w src dst prio crit :
  load_blind Q -> Q (G w) -> Q (G (run (inject_flow src dst prio crit) w)).
Proof.
  intros [Hinc _] Hw. unfold run. rewrite inject_flow_unfold.
  destruct (result (compute_path src dst prio crit) w) as [[p|]|e];
    cbn [snd G]; try exact Hw.
  destruct (if crit then result (compute_backup_path p) w else Ok None);
    cbn [snd G]; [now apply Hinc | exact Hw].
Qed.

Lemma remove_flow_graph Q w src dst :
  load_blind Q -> Q (G w) -> Q (G (run (remove_flow src dst) w)).
Proof.
  intros [_ Hdec] Hw. unfold run, remove_flow, bind, get_flow_table, get_G,
    put_G, put_flow_table, print, raise. cbn [fst snd G flow_table stdout].
  destruct (dict_get (src, dst) (flow_table w)) as [f|]; cbn [snd G]; [|exact Hw].
  destruct (active_path f) as [p|]; cbn [snd G]; [now apply Hdec | exact Hw].
Qed.

Lemma loads_nonneg_blind : load_blind loads_nonneg.
Proof.
  assert (H : forall f, (forall n, 0 <= n -> 0 <= f n) ->
                        forall g u v, loads_nonneg g ->
                                      loads_nonneg (nx.update_num_flows f g u v)).
  { intros f Hf g u v Hg. unfold loads_nonneg, nx.update_num_flows in *.
    cbn [nx.edges]. rewrite Forall_forall in *. intros e He.
    apply in_map_iff in He. destruct He as [e0 [<- Hin]]. specialize (Hg e0 Hin).
    destruct (nx.joins u v e0); cbn [snd]; auto. }
  split; intros g p Hg.
  - apply (update_hops_graph loads_nonneg (fun n => n + 1)); [|exact Hg].
    apply H. intros; lia.
  - apply (update_hops_graph loads_nonneg (fun n => Z.max 0 (n - 1))); [|exact Hg].
    apply H. intros; lia.
Qed.

Lemma loads_nonneg_remove_edge g u v :
  loads_nonneg g -> loads_nonneg (nx.remove_edge g u v).
Proof.
  unfold loads_nonneg, nx.remove_edge. cbn [nx.edges]. rewrite !Forall_forall.
  intros H e He. apply filter_In in He. now apply H.
Qed.

Lemma loads_nonneg_check g :
  forallb (fun e => 0 <=? snd e) (nx.edges g) = true -> loads_nonneg g.
Proof.
  unfold loads_nonneg. rewrite forallb_forall, Forall_forall.
  intros H e He. apply Z.leb_le. now apply H.
Qed.

(** X1.  Starting from loads that are not negative, no sequence of installs,
    removals and link failures ever leaves a negative load on an edge,
    whether or not the operations succeed. *)
Theorem loads_stay_nonneg os :
  forall w, loads_nonneg (G w) -> loads_nonneg (G (run_ops os w)).
Proof.
  induction os as [|o os IH]; intros w Hw; [exact Hw|].
  cbn [run_ops]. apply IH. destruct o; cbn [exec].
  - now apply inject_flow_graph; [apply loads_nonneg_blind|].
  - now apply remove_flow_graph; [apply loads_nonneg_blind|].
  - apply fail_link_graph; [apply loads_nonneg_blind|].
    destruct (nx.has_edge (G w) u v); [now apply loads_nonneg_remove_edge | exact Hw].
Qed.

Lemma loads_stay_nonneg_witness :
  loads_nonneg
    (G (run_ops [Install "A" "B" false false; FailLink "A" "E"; Remove "B" "C"]
                main_world)).
Proof.
  apply (loads_stay_nonneg
           [Install "A" "B" false false; FailLink "A" "E"; Remove "B" "C"]
           main_world).
  apply loads_nonneg_check. reflexivity.
Defined.

(** ** Links and nodes under [fail_link] *)

Lemma same_shape_refl g : same_shape g g.
Proof. split; reflexivity. Qed.

Lemma same_shape_trans g1 g2 g3 :
  same_shape g1 g2 -> same_shape g2 g3 -> same_shape g1 g3.
Proof. intros [H1 H2] [H3 H4]. split; congruence. Qed.

Lemma same_shape_update f g u v : same_shape (nx.update_num_flows f g u v) g.
Proof.
  split; [reflexivity|]. unfold nx.update_num_flows. cbn [nx.edges].
  rewrite map_map. apply map_ext. intros [[a b] n].
  now destruct (nx.joins u v (a, b, n)).
Qed.

Lemma same_shape_blind g0 : load_blind (fun g => same_shape g g0).
Proof.
  split; intros g p Hg.
  - apply (update_hops_graph (fun g => same_shape g g0) (fun n => n + 1)); [|exact Hg].
    intros g1 u v H. eapply same_shape_trans; [apply same_shape_update | exact H].
  - apply (update_hops_graph (fun g => same_shape g g0) (fun n => Z.max 0 (n - 1)));
      [|exact Hg].
    intros g1 u v H. eapply same_shape_trans; [apply same_shape_update | exact H].
Qed.

Lemma has_edge_shape g1 g2 x y :
  same_shape g1 g2 -> nx.has_edge g1 x y = nx.has_edge g2 x y.
Proof.
  intros [_ H]. unfold nx.has_edge. revert H.
  generalize (nx.edges g1) (nx.edges g2). intros l1.
  induction l1 as [|[[a b] n] l1 IH]; intros [|[[a' b'] n'] l2] H;
    try discriminate; [reflexivity|].
  cbn [map fst] in H. injection H as -> -> H. cbn [existsb].
  rewrite !joins_same_link. now rewrite (IH l2 H).
Qed.

Lemma same_link_swap u v x y : same_link u v y x = same_link u v x y.
Proof.
  unfold same_link. rewrite orb_comm.
  now rewrite (andb_comm (String.eqb x v)), (andb_comm (String.eqb x u)).
Qed.

Lemma same_link_both u v x y a b :
  same_link x y a b = true -> same_link u v a b = same_link u v x y.
Proof.
  unfold same_link at 1. intros Hs. apply orb_true_iff in Hs.
  destruct Hs as [Hs|Hs]; apply andb_true_iff in Hs; destruct Hs as [H1 H2];
    apply String.eqb_eq in H1, H2; subst; [reflexivity | apply same_link_swap].
Qed.

Lemma has_edge_remove_edge g u v x y :
  nx.has_edge (nx.remove_edge g u v) x y =
  nx.has_edge g x y && negb (same_link u v x y).
Proof.
  unfold nx.has_edge, nx.remove_edge. cbn [nx.edges].
  induction (nx.edges g) as [|[[a b] n] l IH]; [reflexivity|].
  cbn [filter existsb]. rewrite !joins_same_link.
  destruct (same_link x y a b) eqn:Hxy.
  - rewrite (same_link_both u v _ _ _ _ Hxy).
    destruct (same_link u v x y); cbn [negb existsb orb andb].
    + rewrite IH. now rewrite !andb_false_r.
    + rewrite joins_same_link, Hxy. reflexivity.
  - destruct (same_link u v a b); cbn [negb existsb orb].
    + exact IH.
    + rewrite joins_same_link, Hxy. exact IH.
Qed.

Lemma remove_edge_absent g u v :
  nx.has_edge g u v = false -> nx.remove_edge g u v = g.
Proof.
  intros H. rewrite <- (guarded_remove_edge g u v). now rewrite H.
Qed.

Lemma fail_link_shape w u v :
  same_shape (G (run (fail_link u v) w)) (nx.remove_edge (G w) u v).
Proof.
  apply (fail_link_graph (fun g => same_shape g (nx.remove_edge (G w) u v))).
  - apply same_shape_blind.
  - destruct (nx.has_edge (G w) u v) eqn:He; [apply same_shape_refl|].
    rewrite (remove_edge_absent _ _ _ He). apply same_shape_refl.
Qed.

(** X2.  Whatever the flow table holds, [fail_link u v] leaves the nodes as
    they are and takes exactly the link between [u] and [v] out of the
    topology: afterwards two nodes are linked if and only if they were
    linked before and are not the pair [u], [v] in either order. *)
Theorem fail_link_removes_exactly_the_link w u v :
  nx.nodes (G (run (fail_link u v) w)) = nx.nodes (G w) /\
  forall x y,
    nx.has_edge (G (run (fail_link u v) w)) x y =
    nx.has_edge (G w) x y && negb (same_link u v x y).
Proof.
  pose proof (fail_link_shape w u v) as H. split.
  - destruct H as [H _]. exact H.
  - intros x y. rewrite (has_edge_shape _ _ x y H). apply has_edge_remove_edge.
Qed.

Lemma same_link_refl u v : same_link u v u v = true.
Proof. unfold same_link. now rewrite !String.eqb_refl. Qed.

(** X3.  Failing the same link a second time changes neither the topology
    nor the flow table: the second call returns normally and only reports
    that there is no such link. *)
Theorem fail_link_twice w u v :
  let w1 := run (fail_link u v) w in
  result (fail_link u v) w1 = Ok tt /\
  G (run (fail_link u v) w1) = G w1 /\
  flow_table (run (fail_link u v) w1) = flow_table w1 /\
  stdout (run (fail_link u v) w1) = stdout w1 ++ [NoLink u v].
Proof.
  cbv zeta. set (w1 := run (fail_link u v) w).
  assert (He : nx.has_edge (G w1) u v = false).
  { unfold w1. rewrite (has_edge_shape _ _ u v (fail_link_shape w u v)).
    rewrite has_edge_remove_edge, same_link_refl. apply andb_false_r. }
  unfold run, result, fail_link, bind, get_G, print.
  cbn [fst snd G]. rewrite He. cbn [negb fst snd G flow_table stdout]. auto.
Qed.

(** ** Removing a flow *)

Lemma dict_get_del_same k t : dict_get k (dict_del k t) = None.
Proof.
  unfold dict_del. induction t as [|[k0 f0] t IH]; [reflexivity|].
  cbn [filter fst]. destruct (key_eqb k k0) eqn:Hk; cbn [negb]; [exact IH|].
  cbn [dict_get]. now rewrite Hk.
Qed.

Lemma dict_get_del_other k k' t :
  k' <> k -> dict_get k' (dict_del k t) = dict_get k' t.
Proof.
  intros Hne. unfold dict_del. induction t as [|[k0 f0] t IH]; [reflexivity|].
  cbn [filter fst dict_get]. destruct (key_eqb k k0) eqn:Hk; cbn [negb dict_get].
  - apply key_eqb_eq in Hk. subst k0. apply key_eqb_neq in Hne. now rewrite Hne.
  - now rewrite IH.
Qed.

Lemma remove_flow_unfold w src dst f p :
  dict_get (src, dst) (flow_table w) = Some f ->
  active_path f = Some p ->
  remove_flow src dst w =
  (Ok tt, mkWorld (decr_flows (G w) p) (dict_del (src, dst) (flow_table w))
                  (stdout w ++ [FlowRemoved src dst])).
Proof.
  intros Hget Hp. unfold remove_flow, bind, get_flow_table, get_G, put_G,
    put_flow_table, print. cbn [G flow_table stdout]. rewrite Hget, Hp. reflexivity.
Qed.

(** X4.  [remove_flow] on a key of the table whose active path visits no
    node twice returns normally, deletes that record and no other, keeps
    every link, and takes 1 off the load (not below 0) of exactly the edges
    of the active path. *)
Theorem remove_flow_removes w src dst f p :
  dict_get (src, dst) (flow_table w) = Some f ->
  active_path f = Some p ->
  NoDup p ->
  let w' := run (remove_flow src dst) w in
  result (remove_flow src dst) w = Ok tt /\
  dict_get (src, dst) (flow_table w') = None /\
  (forall k, k <> (src, dst) ->
             dict_get k (flow_table w') = dict_get k (flow_table w)) /\
  (forall x y, nx.has_edge (G w') x y = nx.has_edge (G w) x y) /\
  (forall x y, nx.num_flows (G w') x y =
               option_map (fun n => if touches x y p then Z.max 0 (n - 1) else n)
                          (nx.num_flows (G w) x y)) /\
  stdout w' = stdout w ++ [FlowRemoved src dst].
Proof.
  intros Hget Hp Hnd. unfold run, result.
  rewrite (remove_flow_unfold _ _ _ _ _ Hget Hp). cbn [fst snd G flow_table stdout].
  rewrite (decr_flows_simple _ _ Hnd).
  split; [reflexivity|]. split; [apply dict_get_del_same|].
  split; [intros k Hk; now apply dict_get_del_other|].
  split; [intros x y; apply has_edge_bump|].
  split; [intros x y; apply num_flows_bump | reflexivity].
Qed.

Lemma remove_flow_removes_witness :
  let w' := run (remove_flow "A" "B") main_world in
  result (remove_flow "A" "B") main_world = Ok tt /\
  dict_get ("A", "B") (flow_table w') = None /\
  (forall k, k <> ("A", "B") ->
             dict_get k (flow_table w') = dict_get k (flow_table main_world)) /\
  (forall x y, nx.has_edge (G w') x y = nx.has_edge (G main_world) x y) /\
  (forall x y, nx.num_flows (G w') x y =
               option_map (fun n => if touches x y ["A"; "E"; "B"]
                                    then Z.max 0 (n - 1) else n)
                          (nx.num_flows (G main_world) x y)) /\
  stdout w' = stdout main_world ++ [FlowRemoved "A" "B"].
Proof.
  apply (remove_flow_removes main_world "A" "B"
           (mkFlow false false ["A"; "E"; "B"] None PRIMARY) ["A"; "E"; "B"]).
  - reflexivity.
  - reflexivity.
  - apply nodupb_NoDup. reflexivity.
Defined.

Lemma dict_get_app_fresh k t t2 :
  dict_get k t = None -> dict_get k (t ++ t2) = dict_get k t2.
Proof.
  induction t as [|[k0 f0] t IH]; cbn [app dict_get]; [reflexivity|].
  destruct (key_eqb k k0); [discriminate | exact IH].
Qed.

Lemma bump_down_after_up g p :
  loads_nonneg g ->
  bump_path (fun n => Z.max 0 (n - 1)) (bump_path (fun n => n + 1) g p) p = g.
Proof.
  intros Hg. unfold bump_path. cbn [nx.nodes nx.edges]. destruct g as [ns es].
  cbn [nx.nodes nx.edges] in *. f_equal. rewrite map_map. apply map_unchanged.
  intros [[a b] n] Hin. unfold loads_nonneg in Hg. cbn [nx.edges] in Hg.
  rewrite Forall_forall in Hg. specialize (Hg _ Hin). cbn [fst snd] in *.
  destruct (touches a b p) eqn:Ht; cbn [fst snd]; rewrite ?Ht; [|reflexivity].
  f_equal. lia.
Qed.

(** X5.  Installing a flow under a key that is not in the table and
    removing it again gives back the topology with all its loads and the
    flow table, provided no load was negative; this holds too when the
    install finds no path or raises. *)
Theorem install_then_remove_restores w src dst prio crit :
  dict_get (src, dst) (flow_table w) = None ->
  loads_nonneg (G w) ->
  let w2 := run (remove_flow src dst) (run (inject_flow src dst prio crit) w) in
  G w2 = G w /\ flow_table w2 = flow_table w.
Proof.
  intros Hfresh Hpos.
  assert (Hnoop : forall w1, G w1 = G w -> flow_table w1 = flow_table w ->
                             G (run (remove_flow src dst) w1) = G w /\
                             flow_table (run (remove_flow src dst) w1) = flow_table w).
  { intros w1 HG Ht. unfold run, remove_flow, bind, get_flow_table.
    cbn [fst snd G flow_table]. rewrite Ht, Hfresh. cbn [print snd G flow_table]. auto. }
  cbv zeta. unfold run at 2 4. rewrite inject_flow_unfold.
  destruct (result (compute_path src dst prio crit) w) as [[p|]|e] eqn:Hp;
    cbn [snd]; try (apply Hnoop; reflexivity).
  destruct (if crit then result (compute_backup_path p) w else Ok None)
    as [bk|e] eqn:Hbk; cbn [snd]; [|apply Hnoop; reflexivity].
  assert (Hnd : NoDup p) by (apply compute_path_simple in Hp; apply Hp).
  rewrite (dict_set_fresh _ _ _ Hfresh). unfold run.
  erewrite remove_flow_unfold; cbn [G flow_table stdout].
  - cbn [snd G flow_table].
    rewrite (incr_flows_simple _ _ Hnd), (decr_flows_simple _ _ Hnd).
    rewrite (bump_down_after_up _ _ Hpos). split; [reflexivity|].
    unfold dict_del. rewrite filter_app. cbn [filter fst].
    rewrite key_eqb_refl. cbn [negb]. rewrite app_nil_r.
    apply dict_del_absent. now apply dict_get_absent.
  - rewrite (dict_get_app_fresh _ _ _ Hfresh). cbn [dict_get].
    now rewrite key_eqb_refl.
  - reflexivity.
Qed.

Lemma install_then_remove_restores_witness :
  let w2 := run (remove_flow "D" "A") (run (inject_flow "D" "A" false true) main_world) in
  G w2 = G main_world /\ flow_table w2 = flow_table main_world.
Proof.
  apply (install_then_remove_restores main_world "D" "A" false true).
  - reflexivity.
  - apply loads_nonneg_check. reflexivity.
Defined.

(** ** Installing under a new key *)

(** X6.  When the key is not in the table and a path [p] is found,
    [inject_flow] returns normally without printing, [p] is a simple path of
    the topology from [src] to [dst], the new record is put after all the
    records already there, a flow that is not critical gets no backup, every
    link stays, and the load goes up by 1 on exactly the edges of [p]. *)
Theorem inject_flow_new_key w src dst prio crit p :
  dict_get (src, dst) (flow_table w) = None ->
  result (compute_path src dst prio crit) w = Ok (Some p) ->
  let w' := run (inject_flow src dst prio crit) w in
  result (inject_flow src dst prio crit) w = Ok tt /\
  simple_path (G w) src dst p /\
  (exists bk,
      flow_table w' =
      flow_table w ++ [((src, dst), mkFlow prio crit p bk PRIMARY)] /\
      (crit = false -> bk = None)) /\
  stdout w' = stdout w /\
  (forall x y, nx.has_edge (G w') x y = nx.has_edge (G w) x y) /\
  (forall x y, nx.num_flows (G w') x y =
               option_map (fun n => if touches x y p then n + 1 else n)
                          (nx.num_flows (G w) x y)).
Proof.
  intros Hfresh Hp. unfold run, result. rewrite inject_flow_unfold, Hp.
  assert (Hbk : exists bk, (if crit then result (compute_backup_path p) w
                            else Ok None) = Ok bk /\ (crit = false -> bk = None)).
  { destruct crit.
    - destruct (compute_backup_path_after_compute_path _ _ _ _ _ _ Hp)
        as [bk [Hbk _]]. exists bk. split; [assumption | discriminate].
    - exists None. auto. }
  destruct Hbk as [bk [Hbk Hnone]]. rewrite Hbk.
  pose proof (compute_path_simple _ _ _ _ _ _ Hp) as Hsimple.
  assert (Hnd : NoDup p) by apply Hsimple.
  cbn [fst snd G flow_table stdout]. rewrite (incr_flows_simple _ _ Hnd).
  split; [reflexivity|]. split; [assumption|].
  split; [exists bk; split; [now apply dict_set_fresh | assumption]|].
  split; [reflexivity|].
  split; [intros x y; apply has_edge_bump | intros x y; apply num_flows_bump].
Qed.

Lemma inject_flow_new_key_witness :
  let w' := run (inject_flow "D" "A" false false) main_world in
  result (inject_flow "D" "A" false false) main_world = Ok tt /\
  simple_path (G main_world) "D" "A" ["D"; "E"; "A"] /\
  (exists bk,
      flow_table w' =
      flow_table main_world ++
        [(("D", "A"), mkFlow false false ["D"; "E"; "A"] bk PRIMARY)] /\
      (false = false -> bk = None)) /\
  stdout w' = stdout main_world /\
  (forall x y, nx.has_edge (G w') x y = nx.has_edge (G main_world) x y) /\
  (forall x y, nx.num_flows (G w') x y =
               option_map (fun n => if touches x y ["D"; "E"; "A"] then n + 1 else n)
                          (nx.num_flows (G main_world) x y)).
Proof.
  apply (inject_flow_new_key main_world "D" "A" false false ["D"; "E"; "A"]).
  - reflexivity.
  - reflexivity.
Defined.

(** ** Loads are not consulted for priority flows and backups *)

Lemma simple_paths_links g1 g2 :
  (forall x y, nx.has_edge g1 x y = nx.has_edge g2 x y) ->
  forall fuel cands u dst,
    nx.simple_paths g1 fuel cands u dst = nx.simple_paths g2 fuel cands u dst.
Proof.
  intros He. induction fuel as [|fuel IH]; intros cands u dst; [reflexivity|].
  cbn [nx.simple_paths]. destruct (String.eqb u dst); [reflexivity|].
  apply flat_map_ext. intros v. rewrite He.
  destruct (nx.has_edge g2 u v); [|reflexivity]. now rewrite IH.
Qed.

Lemma shortest_simple_paths_shape g1 g2 src dst :
  same_shape g1 g2 ->
  nx.shortest_simple_paths g1 src dst = nx.shortest_simple_paths g2 src dst.
Proof.
  intros Hs. pose proof Hs as [Hn _].
  unfold nx.shortest_simple_paths, nx.all_simple_paths, nx.has_node. rewrite Hn.
  rewrite (simple_paths_links g1 g2); [reflexivity|].
  intros x y. now apply has_edge_shape.
Qed.

Lemma map_fst_filter {A B} (P : A -> bool) (l : list (A * B)) :
  map fst (filter (fun e => P (fst e)) l) = filter P (map fst l).
Proof.
  induction l as [|[a b] l IH]; [reflexivity|].
  cbn [filter map fst]. destruct (P a); cbn [map fst]; now rewrite IH.
Qed.

Lemma same_shape_without g1 g2 p :
  same_shape g1 g2 ->
  same_shape (without_path_edges g1 p) (without_path_edges g2 p).
Proof.
  intros [Hn He]. unfold without_path_edges. split; cbn [nx.nodes nx.edges].
  - exact Hn.
  - rewrite (map_fst_filter (fun ab => negb (touches (fst ab) (snd ab) p)) (nx.edges g1)).
    rewrite (map_fst_filter (fun ab => negb (touches (fst ab) (snd ab) p)) (nx.edges g2)).
    now rewrite He.
Qed.

(** X7.  Two topologies with the same nodes and the same links, whatever
    the loads on them, give the same answer from [compute_path] for a
    priority flow and the same answer from [compute_backup_path]: neither
    reads [num_flows]. *)
Theorem priority_and_backup_ignore_loads w1 w2 src dst crit p :
  same_shape (G w1) (G w2) ->
  result (compute_path src dst true crit) w1 =
  result (compute_path src dst true crit) w2 /\
  result (compute_backup_path p) w1 = result (compute_backup_path p) w2.
Proof.
  intros Hs. split.
  - rewrite !compute_path_result.
    now rewrite (shortest_simple_paths_shape _ _ src dst Hs).
  - rewrite !compute_backup_path_result. destruct p as [|first rest]; [reflexivity|].
    unfold nx.shortest_path.
    now rewrite (shortest_simple_paths_shape _ _ first (last (first :: rest) first)
                   (same_shape_without _ _ (first :: rest) Hs)).
Qed.

Lemma priority_and_backup_ignore_loads_witness :
  result (compute_path "A" "B" true false) (mkWorld main_G [] []) =
  result (compute_path "A" "B" true false) main_world /\
  result (compute_backup_path ["A"; "C"]) (mkWorld main_G [] []) =
  result (compute_backup_path ["A"; "C"]) main_world.
Proof.
  apply (priority_and_backup_ignore_loads (mkWorld main_G [] []) main_world
           "A" "B" false ["A"; "C"]).
  split; reflexivity.
Defined.

(** ** The backup is a shortest detour *)

Lemma walk_shortens g :
  forall p src dst,
    from_to src dst p -> is_walk g p ->
    exists q, simple_path g src dst q /\ (length q <= length p)%nat.
Proof.
  induction p as [|a r IH]; intros src dst [Hhd Hlast] Hw; [discriminate|].
  cbn [hd_error] in Hhd. injection Hhd as ->.
  destruct r as [|v r].
  - cbn in Hlast. subst dst. exists [src]. split; [|apply Nat.le_refl].
    split; [split; reflexivity|].
    split; [constructor; [intros []|constructor] | assumption].
  - destruct (IH v dst) as [q [[[Hqhd Hqlast] [Hqnd Hqw]] Hlen]].
    + split; [reflexivity|]. rewrite last_cons in Hlast. rewrite <- Hlast.
      apply last_nonempty_default.
    + eapply is_walk_tail. exact Hw.
    + destruct (in_dec string_dec src q) as [Hin|Hnin].
      * apply in_split in Hin. destruct Hin as [l1 [l2 ->]].
        exists (src :: l2). split.
        -- split; [|split].
           ++ split; [reflexivity|]. rewrite <- Hqlast.
              rewrite last_app_cons. apply last_nonempty_default.
           ++ apply NoDup_app_remove_l in Hqnd. exact Hqnd.
           ++ eapply is_walk_suffix. exact Hqw.
        -- rewrite length_app in Hlen. cbn [length] in *.
           apply Nat.le_trans with (m := (length l1 + S (length l2))%nat).
           ++ apply Nat.le_add_l.
           ++ apply Nat.le_trans with (m := S (length r)); [exact Hlen|].
              apply Nat.le_succ_diag_r.
      * exists (src :: q). split.
        -- split; [|split].
           ++ split; [reflexivity|]. rewrite last_cons. rewrite <- Hqlast.
              destruct q; [discriminate|]. apply last_nonempty_default.
           ++ now constructor.
           ++ destruct Hw as [Hn He]. destruct Hqw as [Hqn Hqe]. split.
              ** constructor; [now inversion Hn | assumption].
              ** destruct q as [|v' q']; [constructor|].
                 cbn [hd_error] in Hqhd. injection Hqhd as ->.
                 rewrite hops_cons2. constructor; [|assumption].
                 rewrite hops_cons2 in He. now inversion He.
        -- cbn [length] in *. now apply le_n_S.
Qed.

(** X8.  The backup that [compute_backup_path] finds for a chosen primary
    path is a shortest detour: no walk from [src] to [dst] through the
    topology without the primary path's edges has fewer nodes. *)
Theorem backup_is_shortest_detour w src dst prio crit p b :
  result (compute_path src dst prio crit) w = Ok (Some p) ->
  result (compute_backup_path p) w = Ok (Some b) ->
  forall q, from_to src dst q ->
            is_walk (without_path_edges (G w) p) q ->
            (length b <= length q)%nat.
Proof.
  intros Hp Hb q Hft Hw.
  destruct (compute_backup_path_after_compute_path _ _ _ _ _ _ Hp)
    as [bk [Hbk [_ Hsome]]].
  rewrite Hb in Hbk. injection Hbk as <-.
  destruct (Hsome b eq_refl) as [_ [Hshort _]].
  destruct (walk_shortens _ _ _ _ Hft Hw) as [q' [Hq' Hlen]].
  eapply Nat.le_trans; [apply Hshort; exact Hq' | exact Hlen].
Qed.

Lemma backup_is_shortest_detour_witness :
  (length ["A"; "E"; "C"] <= length ["A"; "E"; "B"; "E"; "C"])%nat.
Proof.
  apply (backup_is_shortest_detour (mkWorld main_G [] []) "A" "C" false true
           ["A"; "C"] ["A"; "E"; "C"]).
  - reflexivity.
  - reflexivity.
  - split; reflexivity.
  - apply conj; repeat constructor.
Defined.

(** ** Records under [fail_link] *)

Lemma failLink_spec_records u v :
  forall t g,
    unique_keys t = true ->
    forallb (fun kf => flow_okb (snd kf)) t = true ->
    forall k f',
      dict_get k (snd (fst (failLink_spec u v t g))) = Some f' ->
      exists f, dict_get k t = Some f /\ routes f' = routes f /\
                (active f = BACKUP -> active f' = BACKUP).
Proof.
  induction t as [|[k0 info] t IH]; intros g Hu Hf k f' Hget.
  - discriminate.
  - cbn [unique_keys] in Hu. apply andb_true_iff in Hu. destruct Hu as [Hk0 Hu].
    apply negb_true_iff in Hk0.
    cbn [forallb snd] in Hf. apply andb_true_iff in Hf. destruct Hf as [Hinfo Hf].
    assert (Hkeep : forall g0 info0,
               routes info0 = routes info ->
               (active info = BACKUP -> active info0 = BACKUP) ->
               dict_get k ((k0, info0) :: snd (fst (failLink_spec u v t g0))) = Some f' ->
               exists f, dict_get k ((k0, info) :: t) = Some f /\
                         routes f' = routes f /\
                         (active f = BACKUP -> active f' = BACKUP)).
    { intros g0 info0 Hr Ha H. cbn [dict_get] in *.
      destruct (key_eqb k k0).
      - injection H as <-. exists info. auto.
      - now apply (IH g0). }
    assert (Hdrop : forall g0,
               dict_get k (snd (fst (failLink_spec u v t g0))) = Some f' ->
               exists f, dict_get k ((k0, info) :: t) = Some f /\
                         routes f' = routes f /\
                         (active f = BACKUP -> active f' = BACKUP)).
    { intros g0 H. destruct (IH g0 Hu Hf k f' H) as [f [Hf1 Hf2]].
      exists f. split; [|exact Hf2]. cbn [dict_get].
      destruct (key_eqb k k0) eqn:Hk; [|exact Hf1].
      apply key_eqb_eq in Hk. subst k0.
      apply dict_get_absent in Hk0. congruence. }
    cbn [failLink_spec] in Hget.
    destruct (active_path info) as [p|].
    + destruct (touches u v p).
      * destruct (backup info) as [b|] eqn:Hb.
        -- destruct (critical info && truthy b).
           ++ destruct (failLink_spec u v t (bump_path _ (bump_path _ g p) b))
                as [[g' t'] out] eqn:Hspec.
              apply (Hkeep (bump_path (fun n => n + 1)
                              (bump_path (fun n => Z.max 0 (n - 1)) g p) b)
                           (set_active BACKUP info)); [reflexivity | reflexivity|].
              now rewrite Hspec.
           ++ destruct (failLink_spec u v t (bump_path _ g p)) as [[g' t'] out] eqn:Hspec.
              apply (Hdrop (bump_path (fun n => Z.max 0 (n - 1)) g p)).
              now rewrite Hspec.
        -- destruct (failLink_spec u v t (bump_path _ g p)) as [[g' t'] out] eqn:Hspec.
           apply (Hdrop (bump_path (fun n => Z.max 0 (n - 1)) g p)).
           now rewrite Hspec.
      * destruct (failLink_spec u v t g) as [[g' t'] out] eqn:Hspec.
        apply (Hkeep g info); [reflexivity | auto|]. now rewrite Hspec.
    + destruct (failLink_spec u v t g) as [[g' t'] out] eqn:Hspec.
      apply (Hkeep g info); [reflexivity | auto|]. now rewrite Hspec.
Qed.

(** X9.  [fail_link] creates no record and recomputes no path: every record
    in the table afterwards was there before under the same key, with the
    same priority, critical flag, primary path and backup path, and a record
    that was running on its backup is still running on its backup; no flow
    goes back to its primary path. *)
Theorem fail_link_keeps_routes w u v :
  table_ok (flow_table w) = true ->
  forall k f',
    dict_get k (flow_table (run (fail_link u v) w)) = Some f' ->
    exists f, dict_get k (flow_table w) = Some f /\ routes f' = routes f /\
              (active f = BACKUP -> active f' = BACKUP).
Proof.
  intros Hok k f'. destruct (nx.has_edge (G w) u v) eqn:He.
  - unfold table_ok in Hok. apply andb_true_iff in Hok. destruct Hok as [Hu Hf].
    unfold run. rewrite (fail_link_on_link _ _ _ He Hu Hf).
    pose proof (failLink_spec_records u v (flow_table w)
                  (nx.remove_edge (G w) u v) Hu Hf k f') as H.
    destruct (failLink_spec u v (flow_table w) _) as [[g' t'] out].
    exact H.
  - unfold run, fail_link, bind, get_G. cbn [fst snd G]. rewrite He.
    cbn [negb print snd G flow_table]. intros H. exists f'. auto.
Qed.

Lemma fail_link_keeps_routes_witness :
  exists f, dict_get ("A", "C") (flow_table main_world) = Some f /\
            routes (mkFlow false true ["A"; "C"] (Some ["A"; "E"; "C"]) BACKUP) =
            routes f /\
            (active f = BACKUP ->
             active (mkFlow false true ["A"; "C"] (Some ["A"; "E"; "C"]) BACKUP) =
             BACKUP).
Proof.
  apply (fail_link_keeps_routes main_world "A" "C").
  - reflexivity.
  - reflexivity.
Defined.

(** ** Loads never undercount *)

Lemma load_covers_cons base g k f t :
  load_covers base g ((k, f) :: t) <->
  load_covers (fun x y => base x y + one_if (traverses x y f)) g t.
Proof.
  unfold load_covers. rewrite !Forall_forall.
  split; intros H e He; specialize (H e He); rewrite flows_on_cons in *; lia.
Qed.

Lemma load_covers_ext base base' g t :
  (forall x y, base x y = base' x y) ->
  load_covers base g t -> load_covers base' g t.
Proof.
  unfold load_covers. rewrite !Forall_forall.
  intros Heq H e He. rewrite <- Heq. now apply H.
Qed.

Lemma load_covers_decr base g t p :
  (forall x y, 0 <= base x y) ->
  load_covers (fun x y => base x y + one_if (touches x y p)) g t ->
  load_covers base (bump_path (fun n => Z.max 0 (n - 1)) g p) t.
Proof.
  unfold load_covers, bump_path. cbn [nx.edges].
  rewrite !Forall_forall. intros Hbase H e He. apply in_map_iff in He.
  destruct He as [[[a b] n] [<- Hin]]. specialize (H _ Hin). cbn [fst snd] in *.
  pose proof (flows_on_nonneg t a b). pose proof (Hbase a b).
  destruct (touches a b p) eqn:Ht; cbn [fst snd one_if] in *; lia.
Qed.

Lemma load_covers_incr base g t p :
  load_covers base g t ->
  load_covers (fun x y => base x y + one_if (touches x y p))
              (bump_path (fun n => n + 1) g p) t.
Proof.
  unfold load_covers, bump_path. cbn [nx.edges].
  rewrite !Forall_forall. intros H e He. apply in_map_iff in He.
  destruct He as [[[a b] n] [<- Hin]]. specialize (H _ Hin). cbn [fst snd] in *.
  destruct (touches a b p) eqn:Ht; cbn [fst snd]; rewrite ?Ht; cbn [one_if]; lia.
Qed.

Lemma failLink_spec_covers u v :
  forall t g base,
    (forall x y, 0 <= base x y) ->
    forallb (fun kf => flow_okb (snd kf)) t = true ->
    load_covers base g t ->
    load_covers base (fst (fst (failLink_spec u v t g)))
                (snd (fst (failLink_spec u v t g))).
Proof.
  induction t as [|[k info] t IH]; intros g base Hbase Hf Hload.
  - exact Hload.
  - cbn [forallb snd] in Hf. apply andb_true_iff in Hf. destruct Hf as [Hinfo Hf].
    destruct (flow_okb_active _ Hinfo) as [p [Hp _]].
    apply load_covers_cons in Hload.
    assert (Htr : forall x y, traverses x y info = touches x y p).
    { intros x y. unfold traverses. now rewrite Hp. }
    assert (Hpos : forall b0 x y, 0 <= base x y + one_if b0).
    { intros b0 x y. specialize (Hbase x y). destruct b0; cbn [one_if]; lia. }
    assert (Hdropped : load_covers base (bump_path (fun n => Z.max 0 (n - 1)) g p) t).
    { apply load_covers_decr; [assumption|].
      eapply load_covers_ext; [|exact Hload]. intros x y. cbn beta. now rewrite Htr. }
    cbn [failLink_spec]. rewrite Hp.
    destruct (touches u v p).
    + destruct (backup info) as [b|] eqn:Hb.
      * destruct (critical info && truthy b).
        -- pose proof (IH _ _ (fun x y => Hpos (touches x y b) x y) Hf
                          (load_covers_incr _ _ _ b Hdropped)) as H.
           destruct (failLink_spec u v t _) as [[g' t'] out]. cbn [fst snd] in *.
           apply load_covers_cons. eapply load_covers_ext; [|exact H].
           intros x y. cbn beta. unfold traverses, set_active, active_path.
           cbn [active backup]. now rewrite Hb.
        -- pose proof (IH _ _ Hbase Hf Hdropped) as H.
           destruct (failLink_spec u v t _) as [[g' t'] out]. exact H.
      * pose proof (IH _ _ Hbase Hf Hdropped) as H.
        destruct (failLink_spec u v t _) as [[g' t'] out]. exact H.
    + pose proof (IH _ _ (fun x y => Hpos (traverses x y info) x y) Hf Hload) as H.
      destruct (failLink_spec u v t g) as [[g' t'] out]. cbn [fst snd] in *.
      now apply load_covers_cons.
Qed.

Lemma flows_on_dict_set_le k f t x y :
  flows_on (dict_set k f t) x y <= flows_on t x y + one_if (traverses x y f).
Proof.
  induction t as [|[k0 f0] t IH]; cbn [dict_set].
  - rewrite flows_on_cons. lia.
  - destruct (key_eqb k k0); rewrite !flows_on_cons.
    + assert (0 <= one_if (traverses x y f0)) by (destruct (traverses x y f0); cbn; lia).
      lia.
    + lia.
Qed.

Lemma inject_flow_covered w src dst prio crit :
  covered w -> covered (run (inject_flow src dst prio crit) w).
Proof.
  intros Hc. unfold run. rewrite inject_flow_unfold.
  destruct (result (compute_path src dst prio crit) w) as [[p|]|e] eqn:Hp;
    cbn [snd]; try exact Hc.
  destruct (if crit then result (compute_backup_path p) w else Ok None)
    as [bk|e]; cbn [snd]; [|exact Hc].
  assert (Hnd : NoDup p) by (apply compute_path_simple in Hp; apply Hp).
  unfold covered in *. cbn [G flow_table]. rewrite (incr_flows_simple _ _ Hnd).
  pose proof (load_covers_incr _ _ _ p Hc) as H.
  unfold load_covers in *. rewrite Forall_forall in *. intros e He.
  specialize (H e He). cbn beta in H.
  pose proof (flows_on_dict_set_le (src, dst) (mkFlow prio crit p bk PRIMARY)
                (flow_table w) (fst (fst e)) (snd (fst e))) as Hle.
  unfold traverses at 1, active_path in Hle. cbn [active primary] in Hle. lia.
Qed.

Lemma remove_flow_covered w src dst :
  table_ok (flow_table w) = true ->
  covered w -> covered (run (remove_flow src dst) w).
Proof.
  intros Hok Hc.
  destruct (dict_get (src, dst) (flow_table w)) as [f|] eqn:Hget.
  - unfold table_ok in Hok. apply andb_true_iff in Hok. destruct Hok as [Hu Hf].
    pose proof (dict_get_flow_ok _ _ _ Hf Hget) as Hflow.
    destruct (flow_okb_active _ Hflow) as [p [Hp Hnd]].
    unfold run. rewrite (remove_flow_unfold _ _ _ _ _ Hget Hp).
    unfold covered in *. cbn [snd G flow_table]. rewrite (decr_flows_simple _ _ Hnd).
    apply load_covers_decr; [intros; lia|].
    unfold load_covers in *. rewrite Forall_forall in *. intros e He.
    specialize (Hc e He). cbn beta in *.
    rewrite (flows_on_dict_del _ _ _ _ _ Hu Hget) in Hc.
    unfold traverses in Hc. rewrite Hp in Hc. lia.
  - unfold run, remove_flow, bind, get_flow_table. cbn [fst snd flow_table].
    rewrite Hget. exact Hc.
Qed.

Lemma fail_link_covered w u v :
  table_ok (flow_table w) = true ->
  covered w -> covered (run (fail_link u v) w).
Proof.
  intros Hok Hc. destruct (nx.has_edge (G w) u v) eqn:He.
  - unfold table_ok in Hok. apply andb_true_iff in Hok. destruct Hok as [Hu Hf].
    unfold run. rewrite (fail_link_on_link _ _ _ He Hu Hf).
    pose proof (failLink_spec_covers u v (flow_table w) (nx.remove_edge (G w) u v)
                  (fun _ _ => 0) (fun _ _ => Z.le_refl 0) Hf) as H.
    destruct (failLink_spec u v (flow_table w) _) as [[g' t'] out].
    cbn [fst snd] in *. unfold covered. cbn [G flow_table]. apply H.
    unfold covered, load_covers, nx.remove_edge in *. cbn [nx.edges].
    apply Forall_forall. intros e Hin. apply filter_In in Hin.
    destruct Hin as [Hin _]. rewrite Forall_forall in Hc. now apply Hc.
  - unfold run, fail_link, bind, get_G. cbn [fst snd G]. rewrite He. exact Hc.
Qed.

(** X10.  From a well-formed table in which every edge carries at least as
    much load as there are records whose active path traverses it, every
    sequence of installs, removals and link failures, re-installs over an
    existing key included, ends in such a state again: the counters may
    overcount but never undercount. *)
Theorem load_never_undercounts os :
  forall w,
    table_ok (flow_table w) = true ->
    covered w ->
    covered (run_ops os w).
Proof.
  induction os as [|o os IH]; intros w Hok Hc; [exact Hc|].
  cbn [run_ops]. apply IH; destruct o; cbn [exec].
  - now apply inject_flow_invariant.
  - now apply remove_flow_invariant.
  - now apply fail_link_invariant.
  - now apply inject_flow_covered.
  - now apply remove_flow_covered.
  - now apply fail_link_covered.
Qed.

Lemma covered_check w :
  forallb (fun e => flows_on (flow_table w) (fst (fst e)) (snd (fst e)) <=? snd e)
          (nx.edges (G w)) = true ->
  covered w.
Proof.
  unfold covered, load_covers. rewrite forallb_forall, Forall_forall.
  intros H e He. specialize (H e He). apply Z.leb_le in H. lia.
Qed.

Lemma load_never_undercounts_witness :
  covered (run_ops [Install "A" "B" false false; FailLink "A" "C";
                    Install "A" "C" true true; Remove "A" "B"]
                   main_world).
Proof.
  apply (load_never_undercounts
           [Install "A" "B" false false; FailLink "A" "C";
            Install "A" "C" true true; Remove "A" "B"]
           main_world).
  - reflexivity.
  - apply covered_check. reflexivity.
Defined.

(** ** A flow from a node to itself *)

Lemma shortest_simple_paths_self g n :
  nx.has_node g n = true -> nx.shortest_simple_paths g n n = Ok [[n]].
Proof.
  intros Hn. unfold nx.shortest_simple_paths, nx.all_simple_paths. rewrite Hn.
  cbn [negb]. destruct (length (remove string_dec n (nx.nodes g)));
    cbn [nx.simple_paths]; rewrite String.eqb_refl; reflexivity.
Qed.

Lemma without_path_edges_single g n : without_path_edges g [n] = g.
Proof.
  unfold without_path_edges. destruct g as [ns es]. cbn [nx.nodes nx.edges].
  f_equal. apply filter_all_true. now induction es.
Qed.

(** X11.  For a node [n] of the topology, [inject_flow n n] without
    priority raises ValueError and changes nothing, the one-node path
    having no edge to take a maximum over; with priority it returns
    normally and stores a record whose primary path is [n] alone (and whose
    backup, for a critical flow, is that same path), touching no load. *)
Theorem inject_flow_same_endpoints w n crit :
  nx.has_node (G w) n = true ->
  result (inject_flow n n false crit) w = Raise ValueError /\
  run (inject_flow n n false crit) w = w /\
  result (inject_flow n n true crit) w = Ok tt /\
  G (run (inject_flow n n true crit) w) = G w /\
  flow_table (run (inject_flow n n true crit) w) =
  dict_set (n, n)
           (mkFlow true crit [n] (if crit then Some [n] else None) PRIMARY)
           (flow_table w).
Proof.
  intros Hn. unfold run, result. rewrite !inject_flow_unfold, !compute_path_result.
  rewrite (shortest_simple_paths_self _ _ Hn).
  cbn [min_by_cost path_cost hops hop_loads fst snd].
  split; [reflexivity|]. split; [reflexivity|].
  assert (Hbk : (if crit then result (compute_backup_path [n]) w else Ok None) =
                Ok (if crit then Some [n] else None)).
  { destruct crit; [|reflexivity]. rewrite compute_backup_path_result.
    rewrite without_path_edges_single. unfold nx.shortest_path. cbn [last].
    now rewrite (shortest_simple_paths_self _ _ Hn). }
  rewrite Hbk. cbn [fst snd G flow_table]. now destruct (G w).
Qed.

Lemma inject_flow_same_endpoints_witness :
  result (inject_flow "A" "A" false true) main_world = Raise ValueError /\
  run (inject_flow "A" "A" false true) main_world = main_world /\
  result (inject_flow "A" "A" true true) main_world = Ok tt /\
  G (run (inject_flow "A" "A" true true) main_world) = G main_world /\
  flow_table (run (inject_flow "A" "A" true true) main_world) =
  dict_set ("A", "A") (mkFlow true true ["A"] (Some ["A"]) PRIMARY)
           (flow_table main_world).
Proof.
  apply (inject_flow_same_endpoints main_world "A" true). reflexivity.
Defined.

(** ** What can be raised *)

Lemma path_cost_raises g p e :
  Forall (fun uv => nx.has_edge g (fst uv) (snd uv) = true) (hops p) ->
  path_cost g p = Raise e -> e = ValueError.
Proof.
  intros He. unfold path_cost. rewrite (hop_loads_edges _ _ He).
  destruct (map _ (hops p)); [now intros [= <-] | discriminate].
Qed.

Lemma min_from_raises g e :
  forall ps best c,
    Forall (fun p => Forall (fun uv => nx.has_edge g (fst uv) (snd uv) = true)
                            (hops p)) ps ->
    min_from g best c ps = Raise e -> e = ValueError.
Proof.
  induction ps as [|p ps IH]; intros best c Hall H; [discriminate|].
  inversion Hall as [|? ? Hp Hps]; subst. cbn [min_from] in H.
  destruct (path_cost g p) as [k|e'] eqn:Hk.
  - destruct (k <? c); eapply IH; eassumption.
  - injection H as <-. eapply path_cost_raises; eassumption.
Qed.

Lemma compute_path_raises w src dst prio crit e :
  result (compute_path src dst prio crit) w = Raise e ->
  e = NodeNotFound \/ e = ValueError.
Proof.
  rewrite compute_path_result.
  destruct (nx.shortest_simple_paths (G w) src dst) as [ps|e0] eqn:Hps.
  - destruct (shortest_simple_paths_ok _ _ _ _ Hps) as [_ [_ Hall]].
    destruct ps as [|p0 rest]; [discriminate|].
    destruct prio; [discriminate|].
    assert (Hwalks : Forall (fun p => Forall (fun uv => nx.has_edge (G w) (fst uv) (snd uv) = true)
                                             (hops p)) (p0 :: rest)).
    { apply Forall_forall. intros p Hp. apply Hall in Hp. apply Hp. }
    inversion Hwalks as [|? ? H0 Hrest]; subst.
    unfold min_by_cost. destruct (path_cost (G w) p0) as [c|e'] eqn:Hc.
    + destruct (min_from (G w) p0 c rest) as [m|e'] eqn:Hm; [discriminate|].
      intros [= <-]. right. eapply min_from_raises; eassumption.
    + intros [= <-]. right. eapply path_cost_raises; eassumption.
  - destruct (shortest_simple_paths_raises _ _ _ _ Hps) as [[-> _]|[-> _]].
    + intros [= <-]. now left.
    + discriminate.
Qed.

Lemma inject_flow_raises w src dst prio crit e :
  result (inject_flow src dst prio crit) w = Raise e ->
  e = NodeNotFound \/ e = ValueError.
Proof.
  unfold result. rewrite inject_flow_unfold.
  destruct (result (compute_path src dst prio crit) w) as [[p|]|e0] eqn:Hp;
    cbn [fst]; try discriminate.
  - destruct crit.
    + destruct (compute_backup_path_after_compute_path _ _ _ _ _ _ Hp)
        as [bk [Hbk _]]. rewrite Hbk. discriminate.
    + discriminate.
  - intros [= <-]. eapply compute_path_raises. exact Hp.
Qed.

Lemma fail_link_returns w u v :
  table_ok (flow_table w) = true -> result (fail_link u v) w = Ok tt.
Proof.
  intros Hok. destruct (nx.has_edge (G w) u v) eqn:He.
  - unfold table_ok in Hok. apply andb_true_iff in Hok. destruct Hok as [Hu Hf].
    unfold result. rewrite (fail_link_on_link _ _ _ He Hu Hf).
    now destruct (failLink_spec u v (flow_table w) _) as [[g' t'] out].
  - unfold result, fail_link, bind, get_G. cbn [fst G]. now rewrite He.
Qed.

(** X12.  Whatever the state, an [inject_flow] that does not return
    normally raises NodeNotFound or ValueError and nothing else, and leaves
    the topology and the flow table as they were; on a well-formed table
    [fail_link] always returns normally. *)
Theorem operations_raise_little w :
  (forall src dst prio crit e,
      result (inject_flow src dst prio crit) w = Raise e ->
      (e = NodeNotFound \/ e = ValueError) /\
      run (inject_flow src dst prio crit) w = w) /\
  (table_ok (flow_table w) = true ->
   forall u v, result (fail_link u v) w = Ok tt).
Proof.
  split.
  - intros src dst prio crit e H. split; [eapply inject_flow_raises; exact H|].
    unfold run, result in *. rewrite inject_flow_unfold in *.
    destruct (result (compute_path src dst prio crit) w) as [[p|]|e0];
      cbn [fst snd] in *; try discriminate; try reflexivity.
    destruct (if crit then result (compute_backup_path p) w else Ok None);
      cbn [fst snd] in *; [discriminate | reflexivity].
  - intros Hok u v. now apply fail_link_returns.
Qed.

Lemma operations_raise_little_witness :
  ((NodeNotFound = NodeNotFound \/ NodeNotFound = ValueError) /\
   run (inject_flow "Z" "A" true false) main_world = main_world) /\
  result (fail_link "A" "C") main_world = Ok tt.
Proof.
  destruct (operations_raise_little main_world) as [H1 H2]. split.
  - apply (H1 "Z" "A" true false NodeNotFound). reflexivity.
  - apply H2. reflexivity.
Defined.

(** * The shell *)

Lemma call_unfold m s :
  call m s =
  (result m (mkWorld (sG s) (sflow_table s) []),
   mkSession (G (run m (mkWorld (sG s) (sflow_table s) [])))
             (flow_table (run m (mkWorld (sG s) (sflow_table s) [])))
             (console s ++ map Core (stdout (run m (mkWorld (sG s) (sflow_table s) []))))).
Proof.
  unfold call, result, run. now destruct (m (mkWorld (sG s) (sflow_table s) [])).
Qed.

Lemma split_space_nonempty l : split_space l <> [].
Proof.
  induction l as [|c l IH]; cbn [split_space]; [discriminate|].
  destruct (String.eqb (String c EmptyString) " "); [discriminate|].
  destruct (split_space l); discriminate.
Qed.

Lemma loads_nonneg_add_edge g a b :
  loads_nonneg g -> loads_nonneg (nx.add_edge g a b 0).
Proof.
  intros Hg.
  assert (Hnode : forall g0 n, loads_nonneg g0 -> loads_nonneg (nx.add_node g0 n)).
  { intros g0 n H. unfold nx.add_node. now destruct (nx.has_node g0 n). }
  pose proof (Hnode _ b (Hnode _ a Hg)) as Hg'.
  unfold nx.add_edge. destruct (nx.has_edge _ a b); unfold loads_nonneg in *;
    cbn [nx.edges].
  - rewrite Forall_forall in *. intros e He. apply in_map_iff in He.
    destruct He as [e0 [<- Hin]]. specialize (Hg' e0 Hin).
    destruct (nx.joins a b e0); cbn [snd]; [apply Z.le_refl | exact Hg'].
  - apply Forall_app. split; [exact Hg'|]. constructor; [apply Z.le_refl | constructor].
Qed.

Lemma loads_nonneg_remove_node g n : loads_nonneg g -> loads_nonneg (remove_node g n).
Proof.
  unfold loads_nonneg, remove_node. cbn [nx.edges]. rewrite !Forall_forall.
  intros H e He. apply filter_In in He. now apply H.
Qed.

Ltac shell_args args :=
  let a := fresh "a" in let b := fresh "b" in let c := fresh "c" in
  let d := fresh "d" in let e := fresh "e" in let l := fresh "l" in
  destruct args as [|a [|b [|c [|d [|e l]]]]].

Lemma command_keeps py_int cmd s :
  session_ok s -> session_ok (snd (command py_int cmd s)).
Proof.
  intros [Hok Hpos]. destruct cmd as [|c0 args]; [now split|].
  unfold command.
  destruct (String.eqb c0 "insert_link").
  { shell_args args; try (now split).
    destruct (nx.has_node (sG s) a && nx.has_node (sG s) b); [|now split].
    destruct (nx.has_edge (sG s) a b); [now split|].
    split; [exact Hok | now apply loads_nonneg_add_edge]. }
  destruct (String.eqb c0 "insert_node").
  { shell_args args; try (now split).
    destruct (nx.has_node (sG s) a) eqn:Ha; [now split|].
    split; [exact Hok|]. cbn [snd say sG]. unfold nx.add_node. now rewrite Ha. }
  destruct (String.eqb c0 "delete_node:").
  { shell_args args; try (now split).
    destruct (nx.has_node (sG s) a); [|now split].
    split; [exact Hok | now apply loads_nonneg_remove_node]. }
  destruct (String.eqb c0 "inject").
  { shell_args args; try (now split).
    destruct (py_int c) as [pz|]; [|now split].
    destruct (py_int d) as [cz|]; [|now split].
    rewrite call_unfold.
    set (w0 := mkWorld (sG s) (sflow_table s) []).
    assert (Hafter : table_ok (flow_table (run (inject_flow a b (negb (pz =? 0))
                                                            (negb (cz =? 0))) w0)) = true /\
                     loads_nonneg (G (run (inject_flow a b (negb (pz =? 0))
                                                       (negb (cz =? 0))) w0))).
    { split.
      - now apply inject_flow_invariant.
      - now apply inject_flow_graph; [apply loads_nonneg_blind|]. }
    destruct (result (inject_flow a b (negb (pz =? 0)) (negb (cz =? 0))) w0)
      as [[]|[]]; exact Hafter. }
  destruct (String.eqb c0 "disable" || String.eqb c0 "delete_link").
  { shell_args args; try (now split).
    rewrite call_unfold.
    set (w0 := mkWorld (sG s) (sflow_table s) []).
    assert (Hafter : table_ok (flow_table (run (fail_link a b) w0)) = true /\
                     loads_nonneg (G (run (fail_link a b) w0))).
    { split.
      - now apply fail_link_invariant.
      - apply fail_link_graph; [apply loads_nonneg_blind|].
        cbn [G w0]. destruct (nx.has_edge (sG s) a b);
          [now apply loads_nonneg_remove_edge | exact Hpos]. }
    destruct (result (fail_link a b) w0); exact Hafter. }
  destruct (String.eqb c0 "query").
  { shell_args args; try (now split).
    destruct (dict_get (a, b) (sflow_table s)); now split. }
  destruct (String.eqb c0 "quit"); now split.
Qed.

Lemma command_raises py_int cmd s e :
  table_ok (sflow_table s) = true -> cmd <> [] ->
  fst (command py_int cmd s) = Raise e -> e = NodeNotFound.
Proof.
  intros Hok Hne. destruct cmd as [|c0 args]; [congruence|].
  unfold command.
  destruct (String.eqb c0 "insert_link").
  { shell_args args; try discriminate.
    destruct (nx.has_node (sG s) a && nx.has_node (sG s) b); [|discriminate].
    destruct (nx.has_edge (sG s) a b); discriminate. }
  destruct (String.eqb c0 "insert_node").
  { shell_args args; try discriminate.
    destruct (nx.has_node (sG s) a); discriminate. }
  destruct (String.eqb c0 "delete_node:").
  { shell_args args; try discriminate.
    destruct (nx.has_node (sG s) a); discriminate. }
  destruct (String.eqb c0 "inject").
  { shell_args args; try discriminate.
    destruct (py_int c) as [pz|]; [|discriminate].
    destruct (py_int d) as [cz|]; [|discriminate].
    rewrite call_unfold.
    destruct (result (inject_flow a b (negb (pz =? 0)) (negb (cz =? 0)))
                     (mkWorld (sG s) (sflow_table s) [])) as [[]|e0] eqn:Hr;
      [discriminate|].
    destruct (inject_flow_raises _ _ _ _ _ _ Hr) as [->| ->];
      [now intros [= <-] | discriminate]. }
  destruct (String.eqb c0 "disable" || String.eqb c0 "delete_link").
  { shell_args args; try discriminate.
    rewrite call_unfold.
    rewrite (fail_link_returns (mkWorld (sG s) (sflow_table s) []) a b Hok).
    discriminate. }
  destruct (String.eqb c0 "query").
  { shell_args args; try discriminate.
    destruct (dict_get (a, b) (sflow_table s)); discriminate. }
  destruct (String.eqb c0 "quit"); discriminate.
Qed.

Lemma main_loop_keeps py_int input :
  forall s, session_ok s -> session_ok (snd (main_loop py_int input s)).
Proof.
  induction input as [|l rest IH]; intros s Hs; [exact Hs|].
  cbn [main_loop].
  pose proof (command_keeps py_int (split_space l)
                (mkSession (sG s) (sflow_table s) (console s ++ [Prompt])) Hs) as H.
  destruct (command py_int (split_space l) _) as [[[|]|e] s']; cbn [snd] in *.
  - now apply IH.
  - exact H.
  - exact H.
Qed.

Lemma main_session_ok :
  session_ok (mkSession (G main_world) (flow_table main_world)
                        (map Core (stdout main_world))).
Proof.
  split; [reflexivity | apply loads_nonneg_check; reflexivity].
Qed.

(** X13.  Whatever lines are typed in and however [int] reads the two
    flags, [main] ends with a flow table whose keys are unique and whose
    records have duplicate-free paths (the backup active only if there is
    one), and with no negative load on any edge. *)
Theorem main_keeps_state_well_formed py_int input :
  table_ok (sflow_table (snd (main py_int input))) = true /\
  loads_nonneg (sG (snd (main py_int input))).
Proof.
  unfold main. apply main_loop_keeps. apply main_session_ok.
Qed.

Lemma main_loop_ending py_int input :
  forall s, session_ok s ->
            fst (main_loop py_int input s) = Quit \/
            fst (main_loop py_int input s) = EndOfInput \/
            fst (main_loop py_int input s) = Uncaught NodeNotFound.
Proof.
  induction input as [|l rest IH]; intros s Hs; [right; now left|].
  cbn [main_loop].
  set (s0 := mkSession (sG s) (sflow_table s) (console s ++ [Prompt])).
  pose proof (command_keeps py_int (split_space l) s0 Hs) as Hk.
  pose proof (fun e => command_raises py_int (split_space l) s0 e (proj1 Hs)
                                      (split_space_nonempty l)) as Hr.
  destruct (command py_int (split_space l) s0) as [[[|]|e] s']; cbn [fst snd] in *.
  - now apply IH.
  - now left.
  - right. right. now rewrite (Hr e eq_refl).
Qed.

(** X14.  A run of [main] can end in three ways only: by [quit], by
    running out of input, or by a NodeNotFound that escapes from an
    [inject] command; no other exception leaves the command loop. *)
Theorem main_ends_by_quit_eof_or_node_not_found py_int input :
  fst (main py_int input) = Quit \/
  fst (main py_int input) = EndOfInput \/
  fst (main py_int input) = Uncaught NodeNotFound.
Proof.
  unfold main. apply main_loop_ending. apply main_session_ok.
Qed.

(** ** Single commands *)

Lemma command_inject py_int src dst p c s :
  command py_int ["inject"; src; dst; p; c] s =
  match py_int p with
  | None => say MustBe0Or1 s
  | Some pz =>
    match py_int c with
    | None => say MustBe0Or1 s
    | Some cz =>
      match call (inject_flow src dst (negb (pz =? 0)) (negb (cz =? 0))) s with
      | (Ok _, s') => (Ok Continue, s')
      | (Raise ValueError, s') => say MustBe0Or1 s'
      | (Raise e, s') => (Raise e, s')
      end
    end
  end.
Proof. reflexivity. Qed.

Lemma inject_flow_self_no_priority w n crit :
  nx.has_node (G w) n = true ->
  inject_flow n n false crit w = (Raise ValueError, w).
Proof.
  intros Hn. rewrite inject_flow_unfold, compute_path_result.
  now rewrite (shortest_simple_paths_self _ _ Hn).
Qed.

Lemma inject_flow_unknown_node w src dst prio crit :
  nx.has_node (G w) src = false \/ nx.has_node (G w) dst = false ->
  inject_flow src dst prio crit w = (Raise NodeNotFound, w).
Proof.
  intros H. rewrite inject_flow_unfold, compute_path_result.
  unfold nx.shortest_simple_paths.
  destruct (nx.has_node (G w) src); cbn [negb]; [|reflexivity].
  destruct H as [H|H]; [discriminate|]. now rewrite H.
Qed.

Lemma call_raise m s e :
  m (mkWorld (sG s) (sflow_table s) []) = (Raise e, mkWorld (sG s) (sflow_table s) []) ->
  call m s = (Raise e, s).
Proof.
  intros H. unfold call. rewrite H. cbn [G flow_table stdout map].
  rewrite app_nil_r. now destruct s.
Qed.

(** X15.  The line [inject n n p c], for a node [n] of the topology and a
    priority flag that reads as 0, changes nothing and is answered with
    "Priority and critical must be 0 or 1", although both flags were read:
    the ValueError comes from the path cost of the one-node path, and the
    loop goes on with the next line. *)
Theorem inject_same_node_is_misreported py_int l rest s n p c cz :
  split_space l = ["inject"; n; n; p; c] ->
  py_int p = Some 0 ->
  py_int c = Some cz ->
  nx.has_node (sG s) n = true ->
  main_loop py_int (l :: rest) s =
  main_loop py_int rest
            (mkSession (sG s) (sflow_table s) (console s ++ [Prompt; MustBe0Or1])).
Proof.
  intros Hl Hp Hc Hn. cbn [main_loop]. rewrite Hl, command_inject, Hp, Hc.
  change (negb (0 =? 0)) with false.
  rewrite (call_raise _ _ ValueError).
  - unfold say. cbn [sG sflow_table console]. now rewrite <- app_assoc.
  - now apply inject_flow_self_no_priority.
Qed.

Lemma inject_same_node_is_misreported_witness :
  main_loop int_0_1 ["inject A A 0 1"; "quit"]
            (mkSession (G main_world) (flow_table main_world) []) =
  main_loop int_0_1 ["quit"]
            (mkSession (G main_world) (flow_table main_world) [Prompt; MustBe0Or1]).
Proof.
  apply (inject_same_node_is_misreported int_0_1 "inject A A 0 1" ["quit"]
           (mkSession (G main_world) (flow_table main_world) []) "A" "0" "1" 1).
  - reflexivity.
  - reflexivity.
  - reflexivity.
  - reflexivity.
Defined.

(** X16.  The line [inject src dst p c] with both flags readable and a
    source or destination that is not a node of the topology ends the run:
    NodeNotFound leaves the loop, the topology and the flow table are as
    before the line, and the lines after it are never read. *)
Theorem inject_unknown_node_ends_run py_int l rest s src dst p c pz cz :
  split_space l = ["inject"; src; dst; p; c] ->
  py_int p = Some pz ->
  py_int c = Some cz ->
  nx.has_node (sG s) src = false \/ nx.has_node (sG s) dst = false ->
  main_loop py_int (l :: rest) s =
  (Uncaught NodeNotFound,
   mkSession (sG s) (sflow_table s) (console s ++ [Prompt])).
Proof.
  intros Hl Hp Hc Hn. cbn [main_loop]. rewrite Hl, command_inject, Hp, Hc.
  rewrite (call_raise _ _ NodeNotFound); [reflexivity|].
  now apply inject_flow_unknown_node.
Qed.

Lemma inject_unknown_node_ends_run_witness :
  main_loop int_0_1 ["inject A Z 1 0"; "disable A C"; "quit"]
            (mkSession (G main_world) (flow_table main_world) []) =
  (Uncaught NodeNotFound,
   mkSession (G main_world) (flow_table main_world) [Prompt]).
Proof.
  apply (inject_unknown_node_ends_run int_0_1 "inject A Z 1 0"
           ["disable A C"; "quit"]
           (mkSession (G main_world) (flow_table main_world) [])
           "A" "Z" "1" "0" 1 0).
  - reflexivity.
  - reflexivity.
  - reflexivity.
  - right. reflexivity.
Defined.

Lemma same_link_comm u v x y : same_link x y u v = same_link u v x y.
Proof.
  unfold same_link.
  rewrite (String.eqb_sym u x), (String.eqb_sym v y),
          (String.eqb_sym u y), (String.eqb_sym v x).
  destruct (String.eqb x u), (String.eqb y v), (String.eqb y u), (String.eqb x v);
    reflexivity.
Qed.

Lemma find_app_l {A} (f : A -> bool) l1 l2 :
  find f (l1 ++ l2) = match find f l1 with
                      | Some x => Some x
                      | None => find f l2
                      end.
Proof.
  induction l1 as [|a l1 IH]; [reflexivity|].
  cbn [app find]. now destruct (f a).
Qed.

(** X17.  [insert_link a b] never touches the flow table or the node set.
    When both nodes exist and are not linked yet, it adds the link between
    them with load 0 and leaves every other link and load as it was; in
    every other case (a missing node, or a link that is already there, whose
    load is then not reset) the topology stays as it is. *)
Theorem insert_link_adds_one_link py_int a b s :
  let s' := snd (command py_int ["insert_link"; a; b] s) in
  sflow_table s' = sflow_table s /\
  nx.nodes (sG s') = nx.nodes (sG s) /\
  (nx.has_node (sG s) a && nx.has_node (sG s) b && negb (nx.has_edge (sG s) a b) = true ->
   (forall x y, nx.has_edge (sG s') x y = nx.has_edge (sG s) x y || same_link a b x y) /\
   nx.num_flows (sG s') a b = Some 0 /\
   (forall x y, same_link a b x y = false ->
                nx.num_flows (sG s') x y = nx.num_flows (sG s) x y)) /\
  (nx.has_node (sG s) a && nx.has_node (sG s) b && negb (nx.has_edge (sG s) a b) = false ->
   sG s' = sG s).
Proof.
  cbv zeta. change (command py_int ["insert_link"; a; b] s)
    with (if nx.has_node (sG s) a && nx.has_node (sG s) b
          then if nx.has_edge (sG s) a b then say LinkExists s
               else say (AddedEdge a b)
                        (mkSession (nx.add_edge (sG s) a b 0) (sflow_table s) (console s))
          else say NodesMissing s).
  destruct (nx.has_node (sG s) a) eqn:Ha; cbn [andb];
    [|repeat split; try discriminate; reflexivity].
  destruct (nx.has_node (sG s) b) eqn:Hb; cbn [andb];
    [|repeat split; try discriminate; reflexivity].
  destruct (nx.has_edge (sG s) a b) eqn:He; cbn [negb];
    [repeat split; try discriminate; reflexivity|].
  assert (Hadd : nx.add_edge (sG s) a b 0 =
                 nx.mkGraph (nx.nodes (sG s)) (nx.edges (sG s) ++ [(a, b, 0)])).
  { unfold nx.add_edge, nx.add_node. rewrite Ha, Hb, He. reflexivity. }
  cbn [say snd sG sflow_table]. rewrite Hadd. cbn [nx.nodes].
  split; [reflexivity|]. split; [reflexivity|]. split; [|discriminate].
  intros _. split; [|split].
  - intros x y. unfold nx.has_edge. cbn [nx.edges]. rewrite existsb_app.
    cbn [existsb]. rewrite joins_same_link, orb_false_r. f_equal. apply same_link_comm.
  - unfold nx.num_flows. cbn [nx.edges]. rewrite find_app_l.
    destruct (find (nx.joins a b) (nx.edges (sG s))) as [e|] eqn:Hf.
    + exfalso. apply find_some in Hf. destruct Hf as [Hin Hj].
      unfold nx.has_edge in He.
      assert (existsb (nx.joins a b) (nx.edges (sG s)) = true)
        by (apply existsb_exists; now exists e).
      congruence.
    + cbn [find]. rewrite joins_same_link, same_link_refl. reflexivity.
  - intros x y Hxy. unfold nx.num_flows. cbn [nx.edges]. rewrite find_app_l.
    destruct (find (nx.joins x y) (nx.edges (sG s))); [reflexivity|].
    cbn [find]. rewrite joins_same_link, same_link_comm, Hxy. reflexivity.
Qed.

Lemma insert_link_adds_one_link_witness :
  let s0 := mkSession (G main_world) (flow_table main_world) [] in
  let s' := snd (command int_0_1 ["insert_link"; "A"; "B"] s0) in
  ((forall x y, nx.has_edge (sG s') x y = nx.has_edge (sG s0) x y || same_link "A" "B" x y) /\
   nx.num_flows (sG s') "A" "B" = Some 0 /\
   (forall x y, same_link "A" "B" x y = false ->
                nx.num_flows (sG s') x y = nx.num_flows (sG s0) x y)) /\
  sG (snd (command int_0_1 ["insert_link"; "A"; "C"] s0)) = sG s0.
Proof.
  cbv zeta. split.
  - apply (insert_link_adds_one_link int_0_1 "A" "B"
             (mkSession (G main_world) (flow_table main_world) [])).
    reflexivity.
  - apply (insert_link_adds_one_link int_0_1 "A" "C"
             (mkSession (G main_world) (flow_table main_world) [])).
    reflexivity.
Defined.

Lemma has_node_remove_node g n m :
  nx.has_node (remove_node g n) m = nx.has_node g m && negb (String.eqb m n).
Proof.
  unfold nx.has_node, remove_node. cbn [nx.nodes].
  induction (nx.nodes g) as [|a l IH]; [reflexivity|].
  cbn [filter existsb]. destruct (String.eqb_spec a n) as [->|Hne]; cbn [negb].
  - rewrite IH. destruct (String.eqb_spec m n) as [->|Hmn]; cbn [negb orb].
    + now rewrite !andb_false_r.
    + now rewrite !andb_true_r.
  - cbn [existsb]. rewrite IH.
    destruct (String.eqb_spec m a) as [->|Hma]; cbn [orb]; [|reflexivity].
    apply String.eqb_neq in Hne. now rewrite Hne.
Qed.

Lemma joins_keeps_endpoints n x y a b :
  same_link x y a b = true ->
  negb (String.eqb a n) && negb (String.eqb b n) =
  negb (String.eqb x n) && negb (String.eqb y n).
Proof.
  unfold same_link. intros Hs. apply orb_true_iff in Hs.
  destruct Hs as [Hs|Hs]; apply andb_true_iff in Hs; destruct Hs as [H1 H2];
    apply String.eqb_eq in H1, H2; subst; [reflexivity | apply andb_comm].
Qed.

Lemma has_edge_remove_node g n x y :
  nx.has_edge (remove_node g n) x y =
  nx.has_edge g x y && (negb (String.eqb x n) && negb (String.eqb y n)).
Proof.
  unfold nx.has_edge, remove_node. cbn [nx.edges].
  induction (nx.edges g) as [|[[a b] k] l IH]; [reflexivity|].
  cbn [filter existsb fst snd]. rewrite joins_same_link.
  destruct (same_link x y a b) eqn:Hs.
  - rewrite (joins_keeps_endpoints n _ _ _ _ Hs).
    destruct (negb (String.eqb x n) && negb (String.eqb y n)); cbn [existsb orb andb].
    + now rewrite joins_same_link, Hs.
    + rewrite IH. now rewrite andb_false_r.
  - destruct (negb (String.eqb a n) && negb (String.eqb b n)); cbn [existsb orb].
    + now rewrite joins_same_link, Hs, IH.
    + exact IH.
Qed.

Lemma num_flows_remove_node g n x y :
  nx.has_edge (remove_node g n) x y = true ->
  nx.num_flows (remove_node g n) x y = nx.num_flows g x y.
Proof.
  rewrite has_edge_remove_node. intros H. apply andb_true_iff in H.
  destruct H as [_ Hxy]. unfold nx.num_flows, remove_node. cbn [nx.edges].
  induction (nx.edges g) as [|[[a b] k] l IH]; [reflexivity|].
  cbn [filter find fst snd]. rewrite joins_same_link.
  destruct (same_link x y a b) eqn:Hs.
  - rewrite (joins_keeps_endpoints n _ _ _ _ Hs), Hxy.
    cbn [find]. now rewrite joins_same_link, Hs.
  - destruct (negb (String.eqb a n) && negb (String.eqb b n)); cbn [find].
    + now rewrite joins_same_link, Hs.
    + exact IH.
Qed.

(** X18.  The command word that deletes a node is [delete_node:], with the
    colon; [delete_node] without it is answered as an unknown command and
    changes nothing.  [delete_node: n] on a node of the topology takes out
    [n] and every link at [n], keeps all other nodes and links with their
    loads, and leaves the flow table alone, so that records whose paths run
    through [n] stay in it. *)
Theorem delete_node_needs_colon_and_keeps_flows py_int n s :
  (forall args, command py_int ("delete_node" :: args) s = say UnknownCommand s) /\
  (nx.has_node (sG s) n = true ->
   let s' := snd (command py_int ["delete_node:"; n] s) in
   sflow_table s' = sflow_table s /\
   (forall m, nx.has_node (sG s') m = nx.has_node (sG s) m && negb (String.eqb m n)) /\
   (forall x y, nx.has_edge (sG s') x y =
                nx.has_edge (sG s) x y &&
                (negb (String.eqb x n) && negb (String.eqb y n))) /\
   (forall x y, nx.has_edge (sG s') x y = true ->
                nx.num_flows (sG s') x y = nx.num_flows (sG s) x y)).
Proof.
  split; [reflexivity|]. intros Hn. cbv zeta.
  change (command py_int ["delete_node:"; n] s)
    with (if nx.has_node (sG s) n
          then say (NodeRemoved n)
                   (mkSession (remove_node (sG s) n) (sflow_table s) (console s))
          else (Ok Continue, s)).
  rewrite Hn. cbn [say snd sG sflow_table].
  split; [reflexivity|]. split; [intros m; apply has_node_remove_node|].
  split; [intros x y; apply has_edge_remove_node|].
  intros x y. apply num_flows_remove_node.
Qed.

Lemma delete_node_needs_colon_and_keeps_flows_witness :
  let s0 := mkSession (G main_world) (flow_table main_world) [] in
  let s' := snd (command int_0_1 ["delete_node:"; "E"] s0) in
  sflow_table s' = sflow_table s0 /\
  (forall m, nx.has_node (sG s') m = nx.has_node (sG s0) m && negb (String.eqb m "E")) /\
  (forall x y, nx.has_edge (sG s') x y =
               nx.has_edge (sG s0) x y &&
               (negb (String.eqb x "E") && negb (String.eqb y "E"))) /\
  (forall x y, nx.has_edge (sG s') x y = true ->
               nx.num_flows (sG s') x y = nx.num_flows (sG s0) x y).
Proof.
  cbv zeta.
  apply (delete_node_needs_colon_and_keeps_flows int_0_1 "E"
           (mkSession (G main_world) (flow_table main_world) [])).
  reflexivity.
Defined.

(** X19.  Only [inject], [disable] and [delete_link] can change the flow
    table: every other line, whatever its words, leaves it exactly as it
    was.  The shell has no command that calls [remove_flow]. *)
Theorem only_inject_and_failures_touch_flows py_int c0 args s :
  c0 <> "inject" -> c0 <> "disable" -> c0 <> "delete_link" ->
  sflow_table (snd (command py_int (c0 :: args) s)) = sflow_table s.
Proof.
  intros H1 H2 H3. apply String.eqb_neq in H1, H2, H3. unfold command.
  rewrite H1, H2, H3. cbn [orb].
  destruct (String.eqb c0 "insert_link").
  { shell_args args; try reflexivity.
    destruct (nx.has_node (sG s) a && nx.has_node (sG s) b); [|reflexivity].
    destruct (nx.has_edge (sG s) a b); reflexivity. }
  destruct (String.eqb c0 "insert_node").
  { shell_args args; try reflexivity.
    destruct (nx.has_node (sG s) a); reflexivity. }
  destruct (String.eqb c0 "delete_node:").
  { shell_args args; try reflexivity.
    destruct (nx.has_node (sG s) a); reflexivity. }
  destruct (String.eqb c0 "query").
  { shell_args args; try reflexivity.
    destruct (dict_get (a, b) (sflow_table s)); reflexivity. }
  destruct (String.eqb c0 "quit"); reflexivity.
Qed.

Lemma only_inject_and_failures_touch_flows_witness :
  sflow_table (snd (command int_0_1 ["delete_node:"; "E"]
                            (mkSession (G main_world) (flow_table main_world) []))) =
  flow_table main_world.
Proof.
  apply (only_inject_and_failures_touch_flows int_0_1 "delete_node:" ["E"]
           (mkSession (G main_world) (flow_table main_world) []));
    discriminate.
Defined.

(** ** Witnesses for the invariants *)

Lemma table_ok_run_ops_witness :
  table_ok (flow_table
              (run_ops [Install "A" "B" false false; FailLink "A" "C";
                        FailLink "A" "E"; Remove "B" "C"]
                       main_world)) = true.
Proof.
  apply (table_ok_run_ops
           [Install "A" "B" false false; FailLink "A" "C";
            FailLink "A" "E"; Remove "B" "C"]
           main_world).
  reflexivity.
Defined.

Lemma load_conserved_check w :
  conserved w = true -> load_conserved (G w) (flow_table w).
Proof. apply conserved_iff. Qed.

Lemma load_conserved_without_reinstall_witness :
  let w := run_ops [Install "D" "A" false true; FailLink "A" "C"; Remove "A" "B"]
                   main_world in
  load_conserved (G w) (flow_table w).
Proof.
  apply (load_conserved_without_reinstall
           [Install "D" "A" false true; FailLink "A" "C"; Remove "A" "B"]
           main_world).
  - reflexivity.
  - apply load_conserved_check. reflexivity.
  - vm_compute. auto.
Defined.

(** ** When no path is found *)

(** X22.  [compute_path] returns [None] exactly when source and destination
    are both nodes of the topology and no walk leads from one to the
    other. *)
Theorem compute_path_none_iff w src dst prio crit :
  result (compute_path src dst prio crit) w = Ok None <->
  nx.has_node (G w) src = true /\ nx.has_node (G w) dst = true /\
  ~ connected (G w) src dst.
Proof.
  split.
  - rewrite compute_path_result.
    destruct (nx.shortest_simple_paths (G w) src dst) as [ps|e] eqn:Hps.
    + destruct (shortest_simple_paths_ok _ _ _ _ Hps) as [Hne _].
      destruct ps as [|p0 rest]; [congruence|].
      destruct prio; [discriminate|].
      destruct (min_by_cost (G w) (p0 :: rest)); discriminate.
    + destruct (shortest_simple_paths_raises _ _ _ _ Hps)
        as [[-> _]|[-> [Hs [Hd Hno]]]]; [discriminate|].
      intros _. split; [assumption|]. split; [assumption|].
      intros Hc. apply connected_simple_path in Hc. destruct Hc as [p Hp].
      now apply (Hno p).
  - intros [Hs [Hd Hno]]. now apply compute_path_no_path.
Qed.

Lemma compute_path_none_iff_witness :
  result (compute_path "D" "A" false false) isolated_D = Ok None <->
  nx.has_node (G isolated_D) "D" = true /\ nx.has_node (G isolated_D) "A" = true /\
  ~ connected (G isolated_D) "D" "A".
Proof.
  apply (compute_path_none_iff isolated_D "D" "A" false false).
Defined.
